(** * Built-up binary classifier: the road segmenter and the model compiler

    A shallow embedding of the two algorithms of
    [built-up-model-training.ipynb]:

    - [cut], which chops a shapely [LineString] into pieces of a given
      length and collects them in a caller-supplied list;
    - [parse_subtree], [parse_one_tree] and [parse_trees], which print a
      LightGBM tree ensemble as the JavaScript text of an evalscript.

    Python floats are binary64 values, so the development computes with
    Rocq's primitive floats; every concrete statement below is checked by
    evaluation. *)

From Stdlib Require Import ZArith List Bool Lia Floats QArith Qround String Ascii DecimalString.
Import ListNotations.

Set Warnings "-inexact-float".

(** ** Part I: the segmenter *)

Module Segmenter.

(** *** The geometry interface the notebook imports from shapely

    [cut] uses three operations of a [LineString]: its [length], the
    arc-length [project]ion of a point and the point [interpolate]d at an
    arc length.  They are kept abstract here, together with the numbers they
    range over, so that the general theorems hold for any implementation;
    module [Geos] below instantiates them with binary64 arithmetic. *)

Class Shapely := {
  num : Type;
  Point : Type;
  zero : num;
  leb : num -> num -> bool;
  ltb : num -> num -> bool;
  eqb : num -> num -> bool;
  length : list Point -> num;
  project : list Point -> Point -> num;
  interpolate : list Point -> num -> Point
}.

Section Cut.

Context {shapely : Shapely}.

(** A line string is its coordinate sequence. *)
Record LineString := mkLine { coords : list Point }.

(** The only exception the function can meet: shapely refuses to build a
    line string from a single coordinate tuple. *)
Inductive exn := ValueError.

(** [LineString(cs)]: the constructor. *)
Definition new_LineString (cs : list Point) : exn + LineString :=
  match cs with
  | [_] => inl ValueError
  | _ => inr (mkLine cs)
  end.

(** How a call of [cut] ends.  [RetLines] is [return lines]: the value is
    the caller's own list object, whose contents are the second component of
    what [cut] yields.  Its flag is bookkeeping that Python does not have: it
    records whether the last remainder was appended ([true]) or the innermost
    call ended otherwise and its value was dropped by [cut(line, distance,
    lines)], a call statement whose result is not used ([false]). *)
Inductive outcome :=
| RetWhole (l : LineString)          (* return [LineString(line)] *)
| RetSplit (a b : LineString)        (* return [coords[:i+1], coords[i:]] *)
| RetLines (complete : bool)         (* return lines *)
| RetNone                            (* the loop ends: the function returns None *)
| Raise (e : exn).

(** The [for i, p in enumerate(coords)] loop up to its first [return]:
    the index at which [pd == distance] or [pd > distance] first holds. *)
Inductive hit := NoHit | HitExact (i : nat) | HitBeyond (i : nat).

Fixpoint scan (line : LineString) (distance : num) (i : nat) (ps : list Point) : hit :=
  match ps with
  | [] => NoHit
  | p :: ps' =>
      let pd := project (coords line) p in
      if eqb pd distance then HitExact i
      else if ltb distance pd then HitBeyond i
      else scan line distance (S i) ps'
  end.

(** [cut(line, distance, lines)].  The recursion is on the remainder of the
    line, which is not a subterm, so the embedding counts calls: [None] means
    that [fuel] nested calls were not enough (a run for which no number is
    enough ends, in Python, in a RecursionError).  Otherwise the result is
    the outcome together with the contents of [lines] when the call ends. *)
Fixpoint cut (fuel : nat) (line : LineString) (distance : num) (lines : list LineString)
  : option (outcome * list LineString) :=
  match fuel with
  | O => None
  | S fuel' =>
      if leb distance zero || leb (length (coords line)) distance
      then Some (RetWhole line, lines)
      else
        let cs := coords line in
        match scan line distance 0 cs with
        | NoHit => Some (RetNone, lines)
        | HitExact i =>
            match new_LineString (firstn (i + 1) cs), new_LineString (skipn i cs) with
            | inr a, inr b => Some (RetSplit a b, lines)
            | _, _ => Some (Raise ValueError, lines)
            end
        | HitBeyond i =>
            let cp := interpolate (coords line) distance in
            match new_LineString (firstn i cs ++ [cp]) with
            | inl e => Some (Raise e, lines)
            | inr piece =>
                let lines1 := lines ++ [piece] in
                match new_LineString (cp :: skipn i cs) with
                | inl e => Some (Raise e, lines1)
                | inr line' =>
                    if ltb distance (length (coords line'))
                    then
                      match cut fuel' line' distance lines1 with
                      | None => None
                      | Some (Raise e, lines2) => Some (Raise e, lines2)
                      | Some (RetLines c, lines2) => Some (RetLines c, lines2)
                      | Some (_, lines2) => Some (RetLines false, lines2)
                      end
                    else
                      match new_LineString (cp :: skipn i cs) with
                      | inl e => Some (Raise e, lines1)
                      | inr rest => Some (RetLines true, lines1 ++ [rest])
                      end
                end
            end
        end
  end.

(** The Python value a call evaluates to, given the final contents of
    [lines]. *)
Definition returned (r : outcome * list LineString) : option (list LineString) :=
  match r with
  | (RetWhole l, _) => Some [l]
  | (RetSplit a b, _) => Some [a; b]
  | (RetLines _, lines) => Some lines
  | (RetNone, _) => None
  | (Raise _, _) => None
  end.

(** Concatenation of segments that share their end points: the first point
    of every segment but the first is the last point of its predecessor and
    is written once. *)
Definition glue (segs : list LineString) : list Point :=
  match segs with
  | [] => []
  | s :: rest => coords s ++ flat_map (fun t => tl (coords t)) rest
  end.

(** Consecutive segments share an end point. *)
Fixpoint chained (segs : list LineString) : Prop :=
  match segs with
  | [] => True
  | a :: rest =>
      match rest with
      | [] => True
      | b :: _ => exists p pre post, coords a = pre ++ [p] /\ coords b = p :: post
      end /\ chained rest
  end.

(** The glued sequence without the points at which the segments were
    joined: every segment but the last loses its last point and every
    segment but the first its first. *)
Fixpoint inner (segs : list LineString) : list Point :=
  match segs with
  | [] => []
  | [s] => tl (coords s)
  | s :: rest => removelast (tl (coords s)) ++ inner rest
  end.

Definition without_seams (segs : list LineString) : list Point :=
  match segs with
  | [] => []
  | [s] => coords s
  | s :: rest => removelast (coords s) ++ inner rest
  end.

End Cut.

End Segmenter.

(** *** The operations of shapely on binary64 coordinates

    shapely is a dependency of the notebook, not part of it: it delegates
    [length], [project] and [interpolate] to the GEOS library.  The
    definitions below transcribe GEOS' linear referencing: a length is the
    sum of the Euclidean lengths of the segments, the projection of a point
    is the arc length of the FIRST point of the line that is nearest to it,
    and interpolation walks the segments until the requested arc length
    falls inside one.  The operations are those of binary64, as in Python;
    the coordinates are taken to be finite and the lengths not to overflow
    (shapely refuses other geometries in ways of its own). *)

Module Geos.

Import Segmenter.
Local Open Scope float_scope.

Definition xy : Type := float * float.

(** [Coordinate::distance]. *)
Definition distance (p q : xy) : float :=
  let dx := fst p - fst q in
  let dy := snd p - snd q in
  sqrt (dx * dx + dy * dy).

Definition same (p q : xy) : bool :=
  (fst p =? fst q) && (snd p =? snd q).

(** [Length::ofLine]: the segment lengths, added from the start. *)
Fixpoint length_from (acc : float) (p0 : xy) (ps : list xy) : float :=
  match ps with
  | [] => acc
  | p1 :: ps' => length_from (acc + distance p1 p0) p1 ps'
  end.

Definition line_length (cs : list xy) : float :=
  match cs with
  | [] => 0
  | p0 :: ps => length_from 0 p0 ps
  end.

(** [Distance::pointToSegment]. *)
Definition pointToSegment (p a b : xy) : float :=
  if same a b then distance p a
  else
    let len2 := (fst b - fst a) * (fst b - fst a) + (snd b - snd a) * (snd b - snd a) in
    let r := ((fst p - fst a) * (fst b - fst a) + (snd p - snd a) * (snd b - snd a)) / len2 in
    if r <=? 0 then distance p a
    else if 1 <=? r then distance p b
    else
      let s := ((snd a - snd p) * (fst b - fst a) - (fst a - fst p) * (snd b - snd a)) / len2 in
      abs s * sqrt len2.

(** [LineSegment::projectionFactor]. *)
Definition projectionFactor (p0 p1 p : xy) : float :=
  if same p p0 then 0
  else if same p p1 then 1
  else
    let dx := fst p1 - fst p0 in
    let dy := snd p1 - snd p0 in
    let len := dx * dx + dy * dy in
    if len <=? 0 then nan
    else ((fst p - fst p0) * dx + (snd p - snd p0) * dy) / len.

(** [LengthIndexOfPoint::segmentNearestMeasure]. *)
Definition segmentNearestMeasure (p0 p1 p : xy) (segmentStartMeasure : float) : float :=
  let projFactor := projectionFactor p0 p1 p in
  if projFactor <=? 0 then segmentStartMeasure
  else if projFactor <=? 1 then segmentStartMeasure + projFactor * distance p0 p1
  else segmentStartMeasure + distance p0 p1.

(** [LengthIndexOfPoint::indexOfFromStart]: a later segment replaces the
    measure found so far only when it is strictly nearer. *)
Fixpoint indexOfFromStart (p : xy) (minIndex minDistance ptMeasure segmentStartMeasure : float)
    (p0 : xy) (ps : list xy) : float :=
  match ps with
  | [] => ptMeasure
  | p1 :: ps' =>
      let segDistance := pointToSegment p p0 p1 in
      let segMeasureToPt := segmentNearestMeasure p0 p1 p segmentStartMeasure in
      let better := (segDistance <? minDistance) && (minIndex <? segMeasureToPt) in
      indexOfFromStart p minIndex
        (if better then segDistance else minDistance)
        (if better then segMeasureToPt else ptMeasure)
        (segmentStartMeasure + distance p0 p1) p1 ps'
  end.

(** [line.project(Point(p))]. *)
Definition line_project (cs : list xy) (p : xy) : float :=
  match cs with
  | [] => -1
  | p0 :: ps => indexOfFromStart p (-1) infinity (-1) 0 p0 ps
  end.

(** [LinearLocation::pointAlongSegmentByFraction]. *)
Definition pointAlongSegmentByFraction (p0 p1 : xy) (frac : float) : xy :=
  if frac <=? 0 then p0
  else if 1 <=? frac then p1
  else ((fst p1 - fst p0) * frac + fst p0, (snd p1 - snd p0) * frac + snd p0).

(** [LengthLocationMap::getLocationForward] followed by
    [LinearLocation::getCoordinate]. *)
Fixpoint locate (len totalLength : float) (p0 : xy) (ps : list xy) : xy :=
  match ps with
  | [] => p0
  | p1 :: ps' =>
      let segLen := distance p1 p0 in
      if len <? totalLength + segLen
      then pointAlongSegmentByFraction p0 p1 ((len - totalLength) / segLen)
      else locate len (totalLength + segLen) p1 ps'
  end.

(** [line.interpolate(distance)]; a negative distance counts from the end. *)
Definition line_interpolate (cs : list xy) (d : float) : xy :=
  match cs with
  | [] => (nan, nan)
  | p0 :: ps =>
      let forwardLength := if d <? 0 then line_length cs + d else d in
      if forwardLength <=? 0 then p0 else locate forwardLength 0 p0 ps
  end.

#[export] Instance geos : Shapely := {|
  num := float;
  Point := xy;
  zero := 0;
  leb := PrimFloat.leb;
  ltb := PrimFloat.ltb;
  eqb := PrimFloat.eqb;
  length := line_length;
  project := line_project;
  interpolate := line_interpolate
|}.

(** The lines of the examples. *)
Definition line (cs : list xy) : LineString := mkLine cs.

Definition road250 : LineString := line [(0, 0); (250, 0)].
Definition loop20 : LineString := line [(0, 0); (10, 0); (0, 0)].
Definition road300 : LineString := line [(0, 0); (150, 0); (200, 0); (300, 0)].
Definition hook : LineString := line [(0, 0); (4, 0); (4, 3); (0, 0); (2, 1.5)].
Definition road_vertex : LineString := line [(0, 0); (100, 0); (250, 0)].

End Geos.

(** ** Part II: the model compiler *)

(** *** Python's [round(x, ndigits)] and [str(x)] on floats

    Both are defined by the exact value of the binary64 number: [round]
    takes the decimal with [ndigits] fractional digits nearest to it (a tie
    goes to the even last digit) and returns the float nearest to that
    decimal; [str] (which an f-string applies) prints the shortest decimal
    that reads back as the same float. *)

Module PyFloat.

Local Open Scope string_scope.
Local Open Scope Z_scope.

(** [a / b] rounded to the nearest integer, ties to even ([0 <= a], [0 < b]). *)
Definition div_half_even (a b : Z) : Z :=
  let q := a / b in
  match 2 * (a mod b) ?= b with
  | Lt => q
  | Gt => q + 1
  | Eq => if Z.even q then q else q + 1
  end.

(** [a / b] rounded to the nearest integer, ties upwards: the rounding the
    specification speaks of. *)
Definition div_half_up (a b : Z) : Z :=
  let q := a / b in
  if b <=? 2 * (a mod b) then q + 1 else q.

Definition pow2 (e : Z) : Q :=
  if 0 <=? e then inject_Z (2 ^ e) else Qinv (inject_Z (2 ^ (- e))).

Definition pow10 (k : Z) : Q :=
  if 0 <=? k then inject_Z (10 ^ k) else Qinv (inject_Z (10 ^ (- k))).

(** The number [m * 2^e] that a finite float stands for. *)
Definition value (m : positive) (e : Z) : Q := Qmult (inject_Z (Zpos m)) (pow2 e).

Definition Qltb (a b : Q) : bool := negb (Qle_bool b a).

(** The [lg] with [2^lg <= v < 2^(lg+1)], for a positive [v]. *)
Definition floor_log2 (v : Q) : Z :=
  let lg := Z.log2 (Qnum v) - Z.log2 (Zpos (Qden v)) in
  if Qltb v (pow2 lg) then lg - 1 else lg.

(** The binary64 number nearest to [v] ([0 <= v]), ties to the even
    mantissa: what reading a decimal literal yields. *)
Definition nearest_double (v : Q) : float :=
  if Qnum v <=? 0 then PrimFloat.zero
  else
    let ex := Z.max (floor_log2 v - 52) (-1074) in
    let t := Qdiv v (pow2 ex) in
    match div_half_even (Qnum t) (Zpos (Qden t)) with
    | Zpos p => SF2Prim (S754_finite false p ex)
    | _ => PrimFloat.zero
    end.

(** [round(x, ndigits)] for [0 <= ndigits]. *)
Definition round (x : float) (ndigits : nat) : float :=
  match Prim2SF x with
  | S754_finite s m e =>
      if 323 <? Z.of_nat ndigits then x
      else
        let t := Qmult (value m e) (pow10 (Z.of_nat ndigits)) in
        let n := div_half_even (Qnum t) (Zpos (Qden t)) in
        let r := nearest_double (Qdiv (inject_Z n) (pow10 (Z.of_nat ndigits))) in
        if s then PrimFloat.opp r else r
  | _ => x
  end.

(** The decimal digits of a natural number. *)
Definition digits (n : Z) : string :=
  NilZero.string_of_uint (N.to_uint (Z.to_N n)).

(** Does the decimal [c] read back as [m * 2^e]?  It does when it lies
    within half a gap of it on either side, the bounds included for an even
    mantissa; below a power of two the gap is half as wide. *)
Definition rounds_to (m : positive) (e : Z) (c : Q) : bool :=
  let v := value m e in
  let up := Qdiv (pow2 e) (inject_Z 2) in
  let down := if (Zpos m =? 2 ^ 52) && (-1074 <? e) then Qdiv (pow2 e) (inject_Z 4) else up in
  let lo := Qminus v down in
  let hi := Qplus v up in
  if Z.even (Zpos m) then Qle_bool lo c && Qle_bool c hi
  else Qltb lo c && Qltb c hi.

(** The position of the decimal point: the [p] with [10^(p-1) <= v < 10^p]. *)
Definition decimal_point (v : Q) : Z :=
  let p := Z.of_nat (String.length (digits (Qnum v)))
           - Z.of_nat (String.length (digits (Zpos (Qden v)))) in
  if Qltb v (pow10 p) then p else p + 1.

(** The [k]-digit decimal that reads back as [m * 2^e] and is nearest to it,
    as a digit number and the power of ten of its last digit.  When the two
    decimals around it both read back and are equally near, the one with the
    even last digit is taken. *)
Definition candidate (m : positive) (e : Z) (p : Z) (k : Z) : option (Z * Z) :=
  let v := value m e in
  let q := p - k in
  let t := Qdiv v (pow10 q) in
  let f := Qfloor t in
  let c := f + 1 in
  let okf := rounds_to m e (Qmult (inject_Z f) (pow10 q)) in
  let okc := rounds_to m e (Qmult (inject_Z c) (pow10 q)) in
  let below := Qminus t (inject_Z f) in
  let above := Qminus (inject_Z c) t in
  let nearest :=
    if Qltb below above then f
    else if Qltb above below then c
    else if Z.even f then f else c in
  match okf, okc with
  | true, true => Some (nearest, q)
  | true, false => Some (f, q)
  | false, true => Some (c, q)
  | false, false => None
  end.

(** The first length, from [k] on, at which a decimal reads back as
    [m * 2^e].  Seventeen digits always do; past them stands the full
    decimal expansion. *)
Fixpoint shortest_from (m : positive) (e : Z) (p : Z) (k : Z) (tries : nat) : Z * Z :=
  match tries with
  | O => if 0 <=? e then (Zpos m * 2 ^ e, 0) else (Zpos m * 5 ^ (- e), e)
  | S tries' =>
      match candidate m e p k with
      | Some r => r
      | None => shortest_from m e p (k + 1) tries'
      end
  end.

(** Trailing zeros belong to the exponent. *)
Fixpoint strip_zeros (fuel : nat) (c q : Z) : Z * Z :=
  match fuel with
  | O => (c, q)
  | S fuel' => if (c mod 10 =? 0) && (0 <? c) then strip_zeros fuel' (c / 10) (q + 1) else (c, q)
  end.

(** The digits of the shortest decimal and the position of its point:
    seventeen digits always identify a binary64 number. *)
Definition shortest (m : positive) (e : Z) : string * Z :=
  let '(c, q) := shortest_from m e (decimal_point (value m e)) 1 17 in
  let '(c, q) := strip_zeros 400 c q in
  let ds := digits c in
  (ds, q + Z.of_nat (String.length ds)).

Fixpoint zeros (n : nat) : string :=
  match n with
  | O => EmptyString
  | S n' => String "0" (zeros n')
  end.

(** The exponent of the scientific form: a sign and at least two digits. *)
Definition exponent (x : Z) : string :=
  let sign : string := if x <? 0 then "-" else "+" in
  let pad : string := if Z.abs x <? 10 then "0" else "" in
  (sign ++ pad ++ digits (Z.abs x))%string.

(** [repr] format: scientific below [1e-4] and from [1e16] on, otherwise
    positional with at least one fractional digit. *)
Definition layout (ds : string) (decpt : Z) : string :=
  let n := String.length ds in
  let k := Z.to_nat decpt in
  if (decpt <=? -4) || (16 <? decpt) then
    let fraction : string := if (1 <? n)%nat then String "." (substring 1 (n - 1) ds) else "" in
    (substring 0 1 ds ++ fraction ++ "e" ++ exponent (decpt - 1))%string
  else if decpt <=? 0 then ("0." ++ zeros (Z.to_nat (- decpt)) ++ ds)%string
  else if decpt <? Z.of_nat n then
    (substring 0 k ds ++ "." ++ substring k (n - k) ds)%string
  else (ds ++ zeros (k - n) ++ ".0")%string.

(** [str(x)], which is what [f'{x}'] prints. *)
Definition str (x : float) : string :=
  match Prim2SF x with
  | S754_nan => "nan"
  | S754_infinity s => if s then "-inf" else "inf"
  | S754_zero s => if s then "-0.0" else "0.0"
  | S754_finite s m e =>
      let '(ds, decpt) := shortest m e in
      if s then String "-" (layout ds decpt) else layout ds decpt
  end.

End PyFloat.

(** *** The tree printer *)

Module Compiler.

Local Open Scope string_scope.

(** A node of LightGBM's [dump_model()]: a dictionary with the key
    [leaf_index] is a leaf, any other one is read as a split.  LightGBM
    writes three shapes: a leaf, a split with all its keys, and, for a tree
    that consists of one leaf, a dictionary with neither [leaf_index] nor
    [split_feature] ([Bare]). *)
Inductive node :=
| Leaf (leaf_index : Z) (leaf_value : float)
| Split (split_feature : Z) (threshold : float) (decision_type : string)
        (left_child right_child : node)
| Bare (leaf_value : float).

(** An entry of [tree_info]. *)
Record tree := { tree_structure : node }.

(** The exceptions these nodes can raise: [IndexError] from the subscript
    [model_inputs[...]] and [KeyError] from [node["split_feature"]]. *)
Inductive py (A : Type) :=
| Ok (a : A)
| IndexError
| KeyError.

Arguments Ok {A} a.
Arguments IndexError {A}.
Arguments KeyError {A}.

Definition bind {A B : Type} (c : py A) (k : A -> py B) : py B :=
  match c with
  | Ok a => k a
  | IndexError => IndexError
  | KeyError => KeyError
  end.

Notation "x <- c ;; k" := (bind c (fun x => k))
  (at level 61, c at next level, right associativity).

(** [l[i]] on a Python list: a negative index counts from the end. *)
Definition getitem {A : Type} (l : list A) (i : Z) : py A :=
  let n := Z.of_nat (List.length l) in
  let j := if (i <? 0)%Z then (i + n)%Z else i in
  if (j <? 0)%Z || (n <=? j)%Z then IndexError
  else match nth_error l (Z.to_nat j) with
       | Some a => Ok a
       | None => IndexError
       end.

Definition nl : string := String (ascii_of_nat 10) EmptyString.
Definition dquote : string := String (ascii_of_nat 34) EmptyString.

(** [f'{i}'] for an index of [enumerate] or [range]. *)
Definition str_int (i : nat) : string := PyFloat.digits (Z.of_nat i).

Section Globals.

(** The notebook's module-level settings.  It sets [PRECISION_SCORES = 4]
    and [PRECISION_THRESHOLD = None], lists eleven bands and leaves
    [MODEL_INPUTS] for the user to fill in. *)
Variable PRECISION_SCORES : option nat.
Variable PRECISION_THRESHOLD : option nat.
Variable MODEL_INPUTS : list string.
Variable BANDS : list string.

Definition BANDS_STR : string := String.concat "," BANDS.
Definition MODEL_INPUTS_STR : string := String.concat ", " MODEL_INPUTS.

(** [round(x, precision)] unless the precision is [None]. *)
Definition rounded (precision : option nat) (x : float) : float :=
  match precision with
  | Some ndigits => PyFloat.round x ndigits
  | None => x
  end.

Fixpoint parse_subtree (n : node) (model_inputs : list string) (brackets : bool) : py string :=
  match n with
  | Leaf _ leaf_value =>
      let score := rounded PRECISION_SCORES leaf_value in
      Ok (PyFloat.str score)
  | Split split_feature threshold decision_type left_child right_child =>
      feature <- getitem model_inputs split_feature ;;
      let threshold := rounded PRECISION_THRESHOLD threshold in
      let condition := feature ++ decision_type ++ PyFloat.str threshold in
      left <- parse_subtree left_child model_inputs true ;;
      right <- parse_subtree right_child model_inputs true ;;
      let result := "(" ++ condition ++ ")?" ++ left ++ ":" ++ right in
      if brackets then Ok ("(" ++ result ++ ")") else Ok result
  | Bare _ => KeyError
  end.

(** The f-string of [parse_one_tree], around the text of the root. *)
Definition tree_function (index : nat) (model_input_str body : string) : string :=
  nl ++ "function pt" ++ str_int index ++ "(" ++ model_input_str ++ ") { " ++ nl
  ++ "   return " ++ body ++ ";" ++ nl
  ++ "}" ++ nl.

Definition parse_one_tree (root : node) (index : nat) (model_input_str : string)
    (model_inputs : list string) : py string :=
  body <- parse_subtree root model_inputs false ;;
  Ok (tree_function index model_input_str body).

(** The list comprehension over [enumerate(trees)], from index [idx] on. *)
Fixpoint tree_functions_from (idx : nat) (trees : list tree) : py (list string) :=
  match trees with
  | [] => Ok []
  | t :: trees' =>
      f <- parse_one_tree (tree_structure t) idx MODEL_INPUTS_STR MODEL_INPUTS ;;
      fs <- tree_functions_from (S idx) trees' ;;
      Ok (f :: fs)
  end.

(** [[f'pt{i}({MODEL_INPUTS_STR})' for i in range(len(trees))]]. *)
Definition calls (n : nat) : list string :=
  map (fun i => "pt" ++ str_int i ++ "(" ++ MODEL_INPUTS_STR ++ ")") (seq 0 n).

(** The fixed text in front of the tree functions. *)
Definition preamble : string :=
  String.concat nl [
    "";
    "//VERSION=3";
    "function setup() {";
    "    return {";
    "        input: [{";
    "            bands: ["
      ++ String.concat "," (map (fun band => dquote ++ band ++ dquote) BANDS) ++ "],";
    "            units: " ++ dquote ++ "DN" ++ dquote;
    "        }],";
    "        output: {";
    "            id:" ++ dquote ++ "default" ++ dquote ++ ",";
    "            bands: 4,";
    "            sampleType: " ++ dquote ++ "AUTO" ++ dquote;
    "        }";
    "    }";
    "}";
    "function evaluatePixel(sample) {";
    "    // define the indices you need";
    "    let NDVI = (sample.B08 - sample.B04)/(sample.B08 + sample.B04)";
    "    let NDVI_RE1 = (sample.B08 - sample.B05)/(sample.B08 + sample.B05)";
    "    ";
    "    ...";
    "    ";
    "    let STI = sample.B11 / sample.B12";
    "    ";
    "    // call the model. Keep in mind that DN have to be divided by 1.e4 to get the same values as the models so when training";
    "    let BLDG_PROBA = predict(sample.B01/1.e4, sample.B02/1.e4,..., STI)";
    "    ";
    "    // make a mask of predictions";
    "    let BLDG_PROBA_080 = (BLDG_PROBA > 0.8) ? 1 : 0;";
    "    ";
    "    // return a blue mask where the mask is used as a transparency layer. With minor modificaitons one can also return the probabilities themselves.";
    "    return [0, 0, 0, 0.4 * BLDG_PROBA_080]";
    "}";
    ""
  ].

(** The [predict] function that closes the program. *)
Definition predict (function_sum : string) : string :=
  "function predict(" ++ MODEL_INPUTS_STR ++ ") { " ++ nl
  ++ "    return [1/(1+Math.exp(-1*(" ++ function_sum ++ ")))];" ++ nl
  ++ "}" ++ nl.

Definition parse_trees (trees : list tree) : py string :=
  fs <- tree_functions_from 0 trees ;;
  let tree_functions := String.concat nl fs in
  let function_sum := String.concat "+" (calls (List.length trees)) in
  Ok (preamble ++ tree_functions ++ nl ++ predict function_sum).

End Globals.

(** The values the notebook assigns. *)
Definition default_scores : option nat := Some 4%nat.
Definition default_threshold : option nat := None.
Definition default_bands : list string :=
  ["B01"; "B02"; "B03"; "B04"; "B05"; "B06"; "B07"; "B08"; "B09"; "B11"; "B12"].

(** The trees of the examples. *)
Definition stump : node := Split 0 1.5 "<=" (Leaf 0 1.0) (Leaf 1 (-1.0)).
Definition stump_from_end : node := Split (-1) 1.5 "<=" (Leaf 0 1.0) (Leaf 1 (-1.0)).
Definition stump_beyond : node := Split 1 1.5 "<=" (Leaf 0 1.0) (Leaf 1 (-1.0)).
Definition deeper : node :=
  Split 1 0.25 "<=" (Split 0 2 "<" (Leaf 0 0.123456) (Leaf 1 0.5)) (Leaf 2 (-0.03125)).
Definition stump_over_bad_child : node :=
  Split (-1) 1.5 "<=" (Split 5 0.5 "<=" (Leaf 0 1.0) (Leaf 1 2.0)) (Leaf 2 (-1.0)).

End Compiler.

(** *** Writing the program to a file *)

Module ModelFile.

Import Compiler.
Local Open Scope string_scope.

(** The object [parse_model] receives, as far as it looks at it:
    [model.booster_.dump_model()['tree_info']]. *)
Record model := { tree_info : list tree }.

(** How a call of [parse_model] ends. *)
Inductive ending :=
| Returned (model_javascript : string)
| RaisedIndexError
| RaisedKeyError
| RaisedOSError.

Section ParseModel.

Variable PRECISION_SCORES : option nat.
Variable PRECISION_THRESHOLD : option nat.
Variable MODEL_INPUTS : list string.
Variable BANDS : list string.

(** The file system and the one operation the function performs on it,
    [with open(name, 'w') as f: f.write(text)]: it says whether it succeeded
    and what the files are afterwards. *)
Variable files : Type.
Variable write_text : string -> string -> files -> bool * files.

(** [parse_model(model, js_output_filename)]: the text is written only
    when the file name is truthy, that is neither [None] nor empty. *)
Definition parse_model (m : model) (js_output_filename : option string) (fs : files)
  : ending * files :=
  match parse_trees PRECISION_SCORES PRECISION_THRESHOLD MODEL_INPUTS BANDS (tree_info m) with
  | IndexError => (RaisedIndexError, fs)
  | KeyError => (RaisedKeyError, fs)
  | Ok model_javascript =>
      match js_output_filename with
      | None => (Returned model_javascript, fs)
      | Some name =>
          if String.eqb name "" then (Returned model_javascript, fs)
          else
            let '(done, fs') := write_text name model_javascript fs in
            if done then (Returned model_javascript, fs') else (RaisedOSError, fs')
      end
  end.

End ParseModel.

(** A file system for the examples: the writes so far, the latest first;
    every write succeeds. *)
Definition log : Type := list (string * string).
Definition log_write (name text : string) (fs : log) : bool * log := (true, (name, text) :: fs).

End ModelFile.

(** ** Part III: properties of the segmenter *)

Module SegmenterFacts.

Import Segmenter.

Section Laws.

Context {shapely : Shapely}.

(** The pieces a complete run appends for a line with coordinates [cs]:
    each cut takes the first [i] coordinates and the cut point [cp], and the
    rest of the run works on [cp] followed by the other coordinates. *)
Inductive pieces : list Point -> list LineString -> Prop :=
| pieces_last cs cp i :
    firstn i cs <> [] ->
    pieces cs [mkLine (firstn i cs ++ [cp]); mkLine (cp :: skipn i cs)]
| pieces_more cs cp i rest :
    firstn i cs <> [] ->
    pieces (cp :: skipn i cs) rest ->
    pieces cs (mkLine (firstn i cs ++ [cp]) :: rest).

Lemma new_LineString_inr cs l :
  new_LineString cs = inr l -> l = mkLine cs.
Proof.
  unfold new_LineString.
  destruct cs as [|p [|q cs']]; intros H; inversion H; reflexivity.
Qed.

Lemma new_LineString_piece front cp l :
  new_LineString (front ++ [cp]) = inr l -> front <> [] /\ l = mkLine (front ++ [cp]).
Proof.
  intros H. split.
  - intros ->. discriminate H.
  - now apply new_LineString_inr.
Qed.

Lemma tl_skipn (A : Type) (i : nat) (cs : list A) :
  tl (skipn i cs) = skipn (S i) cs.
Proof.
  revert cs. induction i as [|i IH]; intros [|c cs]; simpl; trivial.
Qed.

Lemma removelast_snoc (A : Type) (front : list A) (x : A) :
  removelast (front ++ [x]) = front.
Proof. apply removelast_last. Qed.

(** What the pieces of a line look like at their head. *)
Lemma firstn_head (A : Type) (i : nat) (cs : list A) :
  firstn i cs <> [] ->
  exists c cs', cs = c :: cs' /\ exists j, i = S j.
Proof.
  destruct cs as [|c cs']; destruct i as [|j]; simpl; try contradiction.
  intros _. exists c, cs'. split; [reflexivity | now exists j].
Qed.

Lemma pieces_head cs segs :
  pieces cs segs ->
  exists c front cp rest,
    hd_error cs = Some c /\ segs = mkLine ((c :: front) ++ [cp]) :: rest /\ rest <> [].
Proof.
  intros H.
  destruct H as [cs cp i Hi | cs cp i rest Hi Hrest];
    destruct (firstn_head _ _ _ Hi) as (c & cs' & -> & j & ->).
  - exists c, (firstn j cs'), cp, [mkLine (cp :: skipn (S j) (c :: cs'))].
    repeat split. discriminate.
  - exists c, (firstn j cs'), cp, rest.
    repeat split. destruct Hrest; discriminate.
Qed.

Lemma pieces_inner cs segs :
  pieces cs segs -> inner segs = tl cs.
Proof.
  induction 1 as [cs cp i Hi | cs cp i rest Hi Hrest IH];
    destruct (firstn_head _ _ _ Hi) as (c & cs' & -> & j & ->).
  - simpl. rewrite removelast_snoc. apply firstn_skipn.
  - destruct (pieces_head _ _ Hrest) as (c' & front' & cp' & rest' & _ & -> & Hne).
    change (removelast (tl (firstn (S j) (c :: cs') ++ [cp]))
            ++ inner (mkLine ((c' :: front') ++ [cp']) :: rest') = tl (c :: cs')).
    rewrite IH. simpl. rewrite removelast_snoc. apply firstn_skipn.
Qed.

Lemma pieces_without_seams cs segs :
  pieces cs segs -> without_seams segs = cs.
Proof.
  intros H. destruct H as [cs cp i Hi | cs cp i rest Hi Hrest].
  - simpl. rewrite removelast_snoc. apply firstn_skipn.
  - pose proof (pieces_inner _ _ Hrest) as Hin.
    destruct (pieces_head _ _ Hrest) as (c' & front' & cp' & rest' & _ & -> & Hne).
    change (removelast (firstn i cs ++ [cp])
            ++ inner (mkLine ((c' :: front') ++ [cp']) :: rest') = cs).
    rewrite Hin, removelast_snoc. simpl. apply firstn_skipn.
Qed.

Lemma pieces_chained cs segs :
  pieces cs segs -> chained segs.
Proof.
  induction 1 as [cs cp i Hi | cs cp i rest Hi Hrest IH].
  - simpl. split; [|tauto]. exists cp, (firstn i cs), (skipn i cs). split; reflexivity.
  - destruct (pieces_head _ _ Hrest) as (c' & front' & cp' & rest' & Hc & -> & Hne).
    split; [|exact IH].
    simpl in Hc. injection Hc as E. subst c'.
    exists cp, (firstn i cs), (front' ++ [cp']). split; reflexivity.
Qed.

(** Gluing the pieces gives the coordinates of the line and one more point
    for every cut. *)
Lemma pieces_glue cs segs :
  pieces cs segs ->
  exists c more, glue segs = c :: more /\ hd_error cs = Some c
                 /\ List.length (glue segs) = (List.length cs + List.length segs - 1)%nat.
Proof.
  induction 1 as [cs cp i Hi | cs cp i rest Hi Hrest IH];
    destruct (firstn_head _ _ _ Hi) as (c & cs' & -> & j & ->).
  - exists c, ((firstn j cs' ++ [cp]) ++ skipn j cs'). simpl. rewrite app_nil_r.
    repeat split.
    rewrite <- (firstn_skipn j cs') at 3.
    rewrite !length_app. simpl. lia.
  - destruct IH as (c' & more & Hg & Hhd & Hlen).
    simpl in Hhd. injection Hhd as E. subst c'.
    destruct (pieces_head _ _ Hrest) as (c' & front' & cp' & rest' & _ & -> & Hne).
    simpl in Hg. injection Hg as E Hmore. subst c'.
    exists c, ((firstn j cs' ++ [cp]) ++ more).
    simpl. rewrite Hmore.
    repeat split.
    simpl in Hlen. rewrite Hmore in Hlen.
    rewrite !length_app. simpl.
    pose proof (firstn_skipn j cs') as E. apply (f_equal (@List.length _)) in E.
    rewrite length_app in E. lia.
Qed.

(** *** The run of [cut] *)

Local Arguments new_LineString : simpl never.

(** The loop stops at a vertex as soon as one projects at or beyond the
    distance: it can only run to its end when none does. *)
Lemma scan_reaches line d ps i p :
  In p ps ->
  eqb (project (coords line) p) d = true \/ ltb d (project (coords line) p) = true ->
  scan line d i ps <> NoHit.
Proof.
  revert i. induction ps as [|q ps IH]; intros i Hin Hp; [destruct Hin|].
  simpl. destruct (eqb (project (coords line) q) d) eqn:Eeq; [discriminate|].
  destruct (ltb d (project (coords line) q)) eqn:Elt; [discriminate|].
  destruct Hin as [-> | Hin].
  - destruct Hp; congruence.
  - now apply IH.
Qed.

(** A caller's list is only ever extended: what a call appends, and how it
    ends, does not depend on what the list held before. *)
Lemma cut_frame fuel line d lines :
  cut fuel line d lines =
  match cut fuel line d [] with
  | Some (o, added) => Some (o, lines ++ added)
  | None => None
  end.
Proof.
  revert line lines. induction fuel as [|fuel IH]; intros line lines; simpl; trivial.
  destruct (leb d zero || leb (length (coords line)) d); [now rewrite app_nil_r|].
  destruct (scan line d 0 (coords line)) as [|i|i]; [now rewrite app_nil_r| |].
  - destruct (new_LineString (firstn (i + 1) (coords line)));
      [|destruct (new_LineString (skipn i (coords line)))]; now rewrite app_nil_r.
  - destruct (new_LineString (firstn i (coords line) ++ [_])) as [e|piece];
      [now rewrite app_nil_r|].
    destruct (new_LineString (_ :: skipn i (coords line))) as [e|line']; [reflexivity|].
    destruct (ltb d (length (coords line'))).
    + rewrite (IH line' (lines ++ [piece])), (IH line' [piece]).
      destruct (cut fuel line' d []) as [[o added]|]; [|reflexivity].
      destruct o; rewrite <- app_assoc; reflexivity.
    + rewrite <- app_assoc. reflexivity.
Qed.

(** A run that ends by appending the last remainder has appended the pieces
    of the line, in order. *)
Lemma cut_complete fuel line d lines st :
  cut fuel line d lines = Some (RetLines true, st) ->
  exists new, st = lines ++ new /\ pieces (coords line) new.
Proof.
  revert line lines st. induction fuel as [|fuel IH]; intros line lines st; simpl; [discriminate|].
  destruct (leb d zero || leb (length (coords line)) d); [discriminate|].
  destruct (scan line d 0 (coords line)) as [|i|i]; [discriminate| |].
  - destruct (new_LineString (firstn (i + 1) (coords line)));
      [|destruct (new_LineString (skipn i (coords line)))]; discriminate.
  - set (cp := interpolate (coords line) d).
    destruct (new_LineString (firstn i (coords line) ++ [cp])) as [e|piece] eqn:Epiece;
      [discriminate|].
    apply new_LineString_piece in Epiece as [Hfront ->].
    destruct (new_LineString (cp :: skipn i (coords line))) as [e|line'] eqn:Eline;
      [discriminate|].
    apply new_LineString_inr in Eline as ->.
    destruct (ltb d (length (coords (mkLine (cp :: skipn i (coords line)))))).
    + destruct (cut fuel _ d (lines ++ [_])) as [[o lines2]|] eqn:Erec; [|discriminate].
      destruct o as [? | ? ? | c | | ?]; intros H; inversion H; subst.
      apply IH in Erec as (new & -> & Hnew).
      exists (mkLine (firstn i (coords line) ++ [cp]) :: new).
      split; [now rewrite <- app_assoc|].
      now apply pieces_more.
    + intros H. inversion H; subst.
      exists [mkLine (firstn i (coords line) ++ [cp]); mkLine (cp :: skipn i (coords line))].
      split; [now rewrite <- app_assoc|].
      now apply pieces_last.
Qed.

(** The two segments of an exact split are the coordinates up to the vertex
    and from it on. *)
Lemma cut_split fuel line d lines a b st :
  cut fuel line d lines = Some (RetSplit a b, st) ->
  exists i, a = mkLine (firstn (i + 1) (coords line)) /\ b = mkLine (skipn i (coords line)).
Proof.
  destruct fuel as [|fuel]; simpl; [discriminate|].
  destruct (leb d zero || leb (length (coords line)) d); [discriminate|].
  destruct (scan line d 0 (coords line)) as [|i|i]; [discriminate| |].
  - destruct (new_LineString (firstn (i + 1) (coords line))) as [e|a'] eqn:Ea; [discriminate|].
    destruct (new_LineString (skipn i (coords line))) as [e|b'] eqn:Eb; [discriminate|].
    intros H. inversion H; subst. exists i.
    split; now apply new_LineString_inr.
  - destruct (new_LineString (firstn i (coords line) ++ [_])); [discriminate|].
    destruct (new_LineString (_ :: skipn i (coords line))) as [e|line']; [discriminate|].
    destruct (ltb d (length (coords line'))).
    + destruct (cut fuel line' d _) as [[[] ?]|]; discriminate.
    + discriminate.
Qed.

(** *** The claims about [cut] that hold for every geometry *)

(** C7.  When [distance <= 0] or [distance >= line.length], [cut] returns
    the one-element list [[line]], whatever [lines] holds, and leaves
    [lines] as it was. *)
Theorem cut_whole fuel line d lines :
  leb d zero = true \/ leb (length (coords line)) d = true ->
  cut (S fuel) line d lines = Some (RetWhole line, lines)
  /\ returned (RetWhole line, lines) = Some [line].
Proof.
  intros H. split; [|reflexivity].
  simpl. destruct H as [-> | ->]; [reflexivity | now rewrite orb_true_r].
Qed.

(** C4, as amended.  [cut] is a function of [line], [distance] and the
    contents of [lines]: two runs on the same line and distance end in the
    same way and append the same segments, each to the list it was given,
    which it extends in place. *)
Theorem cut_extends_lines fuel line d lines1 lines2 :
  match cut fuel line d lines1, cut fuel line d lines2 with
  | Some (o1, st1), Some (o2, st2) =>
      o1 = o2 /\ exists added, st1 = lines1 ++ added /\ st2 = lines2 ++ added
  | None, None => True
  | _, _ => False
  end.
Proof.
  rewrite (cut_frame fuel line d lines1), (cut_frame fuel line d lines2).
  destruct (cut fuel line d []) as [[o added]|]; [|exact I].
  split; [reflexivity|]. exists added. split; reflexivity.
Qed.

(** C1, as amended.  Started on an empty list, a run that splits at a
    vertex returns two segments whose concatenation, the shared vertex
    written once, is the coordinate sequence of the line.  A run that cuts
    at interpolated points and ends by appending the last remainder returns
    segments of which each starts at the point where its predecessor ends;
    their concatenation is the coordinate sequence of the line with one
    more point for every cut, and it is the coordinate sequence itself once
    the points at the joints are left out. *)
Theorem cut_reconstructs fuel line d o segs :
  cut fuel line d [] = Some (o, segs) ->
  match o with
  | RetSplit a b => glue [a; b] = coords line
  | RetLines true =>
      returned (o, segs) = Some segs
      /\ chained segs
      /\ without_seams segs = coords line
      /\ List.length (glue segs) = (List.length (coords line) + (List.length segs - 1))%nat
  | _ => True
  end.
Proof.
  intros H. destruct o as [l | a b | [|] | | e]; trivial.
  - apply cut_split in H as (i & -> & ->).
    simpl. rewrite app_nil_r, tl_skipn.
    replace (i + 1)%nat with (S i) by lia. apply firstn_skipn.
  - apply cut_complete in H as (new & -> & Hp). simpl app.
    split; [reflexivity|]. split; [now apply pieces_chained with (coords line)|].
    split; [now apply pieces_without_seams|].
    destruct (pieces_glue _ _ Hp) as (c & more & _ & _ & Hlen).
    destruct (pieces_head _ _ Hp) as (? & ? & ? & ? & _ & E & _).
    rewrite Hlen, E. simpl. lia.
Qed.

(** *** Further facts about the run *)

(** When some vertex of the line projects at or beyond the distance, a call
    does not end in the fall-through: it never returns [None]. *)
Theorem cut_reaches_vertex fuel line d lines p o st :
  In p (coords line) ->
  eqb (project (coords line) p) d = true \/ ltb d (project (coords line) p) = true ->
  cut (S fuel) line d lines = Some (o, st) ->
  o <> RetNone.
Proof.
  intros Hin Hp. simpl.
  destruct (leb d zero || leb (length (coords line)) d); [intros H; now inversion H|].
  pose proof (scan_reaches line d (coords line) 0 p Hin Hp) as Hscan.
  destruct (scan line d 0 (coords line)) as [|i|i]; [contradiction| |].
  - destruct (new_LineString (firstn (i + 1) (coords line)));
      [|destruct (new_LineString (skipn i (coords line)))];
      intros H; now inversion H.
  - destruct (new_LineString (firstn i (coords line) ++ [_])); [intros H; now inversion H|].
    destruct (new_LineString (_ :: skipn i (coords line))) as [e|line'];
      [intros H; now inversion H|].
    destruct (ltb d (length (coords line'))).
    + destruct (cut fuel line' d _) as [[[] ?]|]; intros H; now inversion H.
    + intros H; now inversion H.
Qed.

(** The call statement [cut(line, distance, lines)] drops the value of the
    recursive call.  When that call splits the remainder at a vertex, its two
    segments reach nobody: the caller returns [lines] with the one piece it
    appended itself. *)
Theorem cut_drops_inner_split fuel line d lines i piece line' a b st :
  leb d zero || leb (length (coords line)) d = false ->
  scan line d 0 (coords line) = HitBeyond i ->
  new_LineString (firstn i (coords line) ++ [interpolate (coords line) d]) = inr piece ->
  new_LineString (interpolate (coords line) d :: skipn i (coords line)) = inr line' ->
  ltb d (length (coords line')) = true ->
  cut fuel line' d (lines ++ [piece]) = Some (RetSplit a b, st) ->
  cut (S fuel) line d lines = Some (RetLines false, lines ++ [piece])
  /\ returned (RetLines false, lines ++ [piece]) = Some (lines ++ [piece]).
Proof.
  intros Hwhole Hscan Hpiece Hline Hlong Hrec.
  split; [|reflexivity].
  assert (st = lines ++ [piece]) as ->.
  { rewrite cut_frame in Hrec.
    destruct fuel as [|fuel']; [discriminate Hrec|]. simpl in Hrec.
    destruct (leb d zero || leb (length (coords line')) d); [discriminate Hrec|].
    destruct (scan line' d 0 (coords line')) as [|j|j]; [discriminate Hrec| |].
    - destruct (new_LineString (firstn (j + 1) (coords line')));
        [discriminate Hrec|destruct (new_LineString (skipn j (coords line')))];
        [discriminate Hrec|].
      inversion Hrec. now rewrite app_nil_r.
    - destruct (new_LineString (firstn j (coords line') ++ [_])); [discriminate Hrec|].
      destruct (new_LineString (_ :: skipn j (coords line'))) as [e|l2]; [discriminate Hrec|].
      destruct (ltb d (length (coords l2))).
      + destruct (cut fuel' l2 d _) as [[[] ?]|]; discriminate Hrec.
      + discriminate Hrec. }
  simpl. rewrite Hwhole, Hscan, Hpiece, Hline, Hlong, Hrec. reflexivity.
Qed.

(** *** Where the loop stops *)

(** A vertex that does not stop the loop: its projection is neither equal
    to the distance nor beyond it. *)
Definition below (line : LineString) (d : num) (p : Point) : Prop :=
  eqb (project (coords line) p) d = false /\ ltb d (project (coords line) p) = false.

Lemma scan_app_below line d front rest i :
  Forall (below line d) front ->
  scan line d i (front ++ rest) = scan line d (i + List.length front) rest.
Proof.
  intros H. revert i. induction H as [|p front [Heq Hlt] _ IH]; intros i; simpl.
  - now rewrite Nat.add_0_r.
  - rewrite Heq, Hlt, IH. f_equal. lia.
Qed.

(** The index the loop stops at is the first vertex that reaches the
    distance. *)
Lemma scan_first line d ps i0 :
  match scan line d i0 ps with
  | NoHit => Forall (below line d) ps
  | HitExact i =>
      exists k p, i = (i0 + k)%nat /\ nth_error ps k = Some p
                  /\ eqb (project (coords line) p) d = true
                  /\ Forall (below line d) (firstn k ps)
  | HitBeyond i =>
      exists k p, i = (i0 + k)%nat /\ nth_error ps k = Some p
                  /\ eqb (project (coords line) p) d = false
                  /\ ltb d (project (coords line) p) = true
                  /\ Forall (below line d) (firstn k ps)
  end.
Proof.
  revert i0. induction ps as [|q ps IH]; intros i0; simpl; [constructor|].
  destruct (eqb (project (coords line) q) d) eqn:Eeq.
  { exists 0%nat, q. repeat split; trivial; lia. }
  destruct (ltb d (project (coords line) q)) eqn:Elt.
  { exists 0%nat, q. repeat split; trivial; lia. }
  specialize (IH (S i0)).
  destruct (scan line d (S i0) ps) as [|i|i].
  - constructor; [split|]; assumption.
  - destruct IH as (k & p & -> & Hnth & Hp & Hbelow).
    exists (S k), p. repeat split; trivial; [lia|].
    simpl. constructor; [split|]; assumption.
  - destruct IH as (k & p & -> & Hnth & Hp & Hp' & Hbelow).
    exists (S k), p. repeat split; trivial; [lia|].
    simpl. constructor; [split|]; assumption.
Qed.

Lemma new_LineString_two cs l :
  cs <> [] -> new_LineString cs = inr l -> (2 <= List.length (coords l))%nat.
Proof.
  destruct cs as [|p [|q cs']]; intros Hne H; try contradiction; inversion H; simpl.
  lia.
Qed.

Lemma nth_error_skipn_cons (A : Type) (k : nat) (l : list A) (a : A) :
  nth_error l k = Some a -> skipn k l = a :: skipn (S k) l.
Proof.
  revert l. induction k as [|k IH]; intros [|x l]; simpl; try discriminate.
  - intros H. now inversion H.
  - apply IH.
Qed.

(** A split at a vertex happens at the first vertex whose projection
    equals the distance, no earlier vertex having reached it; both segments
    have at least two coordinates, the vertex is neither the first nor the
    last of the line, and [lines] is left alone. *)
Theorem cut_split_first_vertex fuel line d lines a b st :
  cut fuel line d lines = Some (RetSplit a b, st) ->
  exists i p,
    nth_error (coords line) i = Some p
    /\ eqb (project (coords line) p) d = true
    /\ Forall (below line d) (firstn i (coords line))
    /\ a = mkLine (firstn (i + 1) (coords line))
    /\ b = mkLine (skipn i (coords line))
    /\ (1 <= i)%nat /\ (i + 2 <= List.length (coords line))%nat
    /\ st = lines.
Proof.
  destruct fuel as [|fuel]; simpl; [discriminate|].
  destruct (leb d zero || leb (length (coords line)) d); [discriminate|].
  pose proof (scan_first line d (coords line) 0) as Hscan.
  destruct (scan line d 0 (coords line)) as [|i|i]; [discriminate| |].
  - destruct Hscan as (k & p & -> & Hnth & Hp & Hbelow). simpl.
    destruct (new_LineString (firstn (k + 1) (coords line))) as [e|a'] eqn:Ea; [discriminate|].
    destruct (new_LineString (skipn k (coords line))) as [e|b'] eqn:Eb; [discriminate|].
    intros H. inversion H; subst. exists k, p.
    pose proof (nth_error_skipn_cons _ _ _ _ Hnth) as Hskip.
    assert (Hk : (k < List.length (coords line))%nat)
      by (apply nth_error_Some; congruence).
    assert (Ha : (2 <= List.length (coords a))%nat).
    { apply (new_LineString_two _ _) in Ea; trivial.
      intros E. apply (f_equal (@List.length _)) in E.
      rewrite length_firstn in E. simpl in E. lia. }
    assert (Hb : (2 <= List.length (coords b))%nat).
    { apply (new_LineString_two _ _) in Eb; trivial. rewrite Hskip. discriminate. }
    apply new_LineString_inr in Ea, Eb. subst a b. simpl in Ha, Hb.
    rewrite length_firstn in Ha. rewrite length_skipn in Hb.
    repeat split; trivial; lia.
  - destruct (new_LineString (firstn i (coords line) ++ [_])); [discriminate|].
    destruct (new_LineString (_ :: skipn i (coords line))) as [e|line']; [discriminate|].
    destruct (ltb d (length (coords line'))).
    + destruct (cut fuel line' d _) as [[[] ?]|]; discriminate.
    + discriminate.
Qed.

(** When the first vertex to reach the distance is the last vertex of the
    line and projects exactly to it, [coords[i:]] is a single coordinate:
    shapely refuses it and [cut] raises [ValueError], [lines] untouched. *)
Theorem cut_raises_at_last_vertex fuel line d lines front p :
  leb d zero || leb (length (coords line)) d = false ->
  coords line = front ++ [p] ->
  Forall (below line d) front ->
  eqb (project (coords line) p) d = true ->
  cut (S fuel) line d lines = Some (Raise ValueError, lines).
Proof.
  intros Hwhole Hcs Hfront Hp. simpl. rewrite Hwhole.
  assert (Hscan : scan line d 0 (coords line) = HitExact (List.length front)).
  { replace (scan line d 0 (coords line)) with (scan line d 0 (front ++ [p]))
      by now rewrite Hcs.
    rewrite scan_app_below by assumption. simpl. now rewrite Hp. }
  rewrite Hscan.
  assert (Hskip : skipn (List.length front) (coords line) = [p]).
  { rewrite Hcs, skipn_app, skipn_all, Nat.sub_diag. reflexivity. }
  rewrite Hskip.
  destruct (new_LineString (firstn (List.length front + 1) (coords line))); reflexivity.
Qed.

(** *** What a call appends *)

(** Whatever the outcome, a call only appends to [lines], and every segment
    it appends has at least two coordinates; when it returns [lines] it has
    appended at least one. *)
Theorem cut_appends_segments fuel line d lines o st :
  cut fuel line d lines = Some (o, st) ->
  exists added,
    st = lines ++ added
    /\ Forall (fun s => (2 <= List.length (coords s))%nat) added
    /\ (forall c, o = RetLines c -> added <> []).
Proof.
  revert line lines o st. induction fuel as [|fuel IH]; intros line lines o st; simpl;
    [discriminate|].
  assert (Hnone : forall o', Some (o', lines) = Some (o, st) -> (forall c, o' <> RetLines c) ->
            exists added, st = lines ++ added
              /\ Forall (fun s => (2 <= List.length (coords s))%nat) added
              /\ (forall c, o = RetLines c -> added <> [])).
  { intros o' H Ho'. inversion H; subst. exists []. rewrite app_nil_r.
    repeat split; [constructor|]. intros c E. now destruct (Ho' c). }
  destruct (leb d zero || leb (length (coords line)) d);
    [intros H; apply (Hnone _ H); discriminate|].
  destruct (scan line d 0 (coords line)) as [|i|i];
    [intros H; apply (Hnone _ H); discriminate| |].
  - destruct (new_LineString (firstn (i + 1) (coords line)));
      [|destruct (new_LineString (skipn i (coords line)))];
      intros H; apply (Hnone _ H); discriminate.
  - set (cp := interpolate (coords line) d).
    destruct (new_LineString (firstn i (coords line) ++ [cp])) as [e|piece] eqn:Epiece;
      [intros H; apply (Hnone _ H); discriminate|].
    assert (Hpiece : (2 <= List.length (coords piece))%nat).
    { apply new_LineString_two in Epiece; trivial. now destruct (firstn i (coords line)). }
    destruct (new_LineString (cp :: skipn i (coords line))) as [e|line'] eqn:Eline.
    { intros H. inversion H; subst. exists [piece]. repeat split; [|discriminate].
      now constructor. }
    assert (Hline : (2 <= List.length (coords line'))%nat).
    { apply new_LineString_two in Eline; trivial. discriminate. }
    destruct (ltb d (length (coords line'))).
    + destruct (cut fuel line' d (lines ++ [piece])) as [[o' lines2]|] eqn:Erec; [|discriminate].
      apply IH in Erec as (added & -> & Hall & _).
      intros H.
      assert (st = lines ++ piece :: added) as ->.
      { rewrite <- app_assoc in H. destruct o'; inversion H; reflexivity. }
      exists (piece :: added). repeat split; [now constructor|discriminate].
    + intros H. inversion H; subst.
      exists [piece; line']. rewrite <- app_assoc. repeat split; [|discriminate].
      now repeat constructor.
Qed.

(** When a call returns [lines], the first segment it appended holds the
    vertices before the first one that projects beyond the distance, none of
    which reached it, followed by [line.interpolate(distance)]. *)
Theorem cut_first_piece fuel line d c segs :
  cut fuel line d [] = Some (RetLines c, segs) ->
  exists i p rest,
    segs = mkLine (firstn i (coords line) ++ [interpolate (coords line) d]) :: rest
    /\ (1 <= i)%nat
    /\ nth_error (coords line) i = Some p
    /\ ltb d (project (coords line) p) = true
    /\ Forall (below line d) (firstn i (coords line)).
Proof.
  destruct fuel as [|fuel]; simpl; [discriminate|].
  destruct (leb d zero || leb (length (coords line)) d); [discriminate|].
  pose proof (scan_first line d (coords line) 0) as Hscan.
  destruct (scan line d 0 (coords line)) as [|i|i]; [discriminate| |].
  - destruct (new_LineString (firstn (i + 1) (coords line)));
      [|destruct (new_LineString (skipn i (coords line)))]; discriminate.
  - destruct Hscan as (k & p & -> & Hnth & _ & Hp & Hbelow). simpl.
    set (cp := interpolate (coords line) d).
    destruct (new_LineString (firstn k (coords line) ++ [cp])) as [e|piece] eqn:Epiece;
      [discriminate|].
    apply new_LineString_piece in Epiece as [Hfront ->].
    assert (Hk : (1 <= k)%nat) by (destruct k; [now destruct Hfront | lia]).
    destruct (new_LineString (cp :: skipn k (coords line))) as [e|line']; [discriminate|].
    destruct (ltb d (length (coords line'))).
    + destruct (cut fuel line' d _) as [[o lines2]|] eqn:Erec; [|discriminate].
      apply cut_appends_segments in Erec as (added & -> & _).
      intros H. exists k, p, added.
      repeat split; trivial. destruct o; now inversion H.
    + intros H. inversion H. exists k, p, [line']. repeat split; trivial.
Qed.

(** *** What is left of the line when the tail is lost *)

(** The coordinates of the appended segments without the cut points: every
    segment loses its last point, and every segment but the first its
    first. *)
Definition fronts (segs : list LineString) : list Point :=
  match segs with
  | [] => []
  | s :: rest =>
      removelast (coords s) ++ flat_map (fun t => removelast (tl (coords t))) rest
  end.

(** The pieces of a run whose innermost call did not append the last
    remainder. *)
Inductive lost_pieces : list Point -> list LineString -> Prop :=
| lost_stop cs cp i :
    firstn i cs <> [] -> skipn i cs <> [] ->
    lost_pieces cs [mkLine (firstn i cs ++ [cp])]
| lost_more cs cp i rest :
    firstn i cs <> [] ->
    lost_pieces (cp :: skipn i cs) rest ->
    lost_pieces cs (mkLine (firstn i cs ++ [cp]) :: rest).

Lemma firstn_app_skipn (A : Type) (i j : nat) (cs : list A) :
  firstn i cs ++ firstn j (skipn i cs) = firstn (i + j) cs.
Proof.
  revert cs. induction i as [|i IH]; intros [|c cs]; simpl; trivial.
  - now destruct j.
  - now rewrite IH.
Qed.

Lemma fronts_cons front cp rest :
  fronts (mkLine (front ++ [cp]) :: rest)
  = front ++ flat_map (fun t => removelast (tl (coords t))) rest.
Proof.
  unfold fronts. simpl coords. now rewrite removelast_snoc.
Qed.

Lemma lost_pieces_fronts cs segs :
  lost_pieces cs segs ->
  chained segs
  /\ exists k front cp rest,
       (1 <= k < List.length cs)%nat /\ fronts segs = firstn k cs
       /\ segs = mkLine (front ++ [cp]) :: rest /\ front <> []
       /\ hd_error front = hd_error cs.
Proof.
  induction 1 as [cs cp i Hi Hs
                 | cs cp i rest Hi Hrest (Hch & k & front & cp' & rest' & Hk & Hf & -> & Hfront & Hhd)];
    destruct (firstn_head _ _ _ Hi) as (c & cs' & -> & j & ->).
  - split; [simpl; tauto|].
    exists (S j), (firstn (S j) (c :: cs')), cp, [].
    assert (S j < List.length (c :: cs'))%nat.
    { destruct (Nat.lt_ge_cases (S j) (List.length (c :: cs'))) as [|Hge]; trivial.
      now apply skipn_all2 in Hge. }
    split; [lia|]. split.
    { rewrite fronts_cons. simpl flat_map. now rewrite app_nil_r. }
    split; [reflexivity|]. split; [discriminate | reflexivity].
  - split.
    + split; [|exact Hch].
      destruct front as [|f front']; [contradiction|].
      simpl in Hhd. injection Hhd as E. subst f.
      exists cp, (firstn (S j) (c :: cs')), (front' ++ [cp']). split; reflexivity.
    + exists (S j + (k - 1))%nat, (firstn (S j) (c :: cs')), cp,
        (mkLine (front ++ [cp']) :: rest').
      assert (Hlen : List.length (cp :: skipn (S j) (c :: cs')) = S (List.length cs' - j))
        by (simpl; now rewrite length_skipn).
      split; [simpl in *; lia|]. split.
      { destruct front as [|f front']; [contradiction|].
        rewrite fronts_cons in Hf. rewrite fronts_cons.
        change (flat_map (fun t => removelast (tl (coords t)))
                  (mkLine ((f :: front') ++ [cp']) :: rest'))
          with (removelast (front' ++ [cp'])
                ++ flat_map (fun t => removelast (tl (coords t))) rest').
        rewrite removelast_snoc.
        rewrite <- firstn_app_skipn. f_equal.
        destruct k as [|k']; [lia|]. simpl in Hf. injection Hf as _ Hf.
        replace (S k' - 1)%nat with k' by lia. exact Hf. }
      split; [reflexivity|]. split; [discriminate | reflexivity].
Qed.

(** The outcomes that are not [return lines] leave [lines] alone, unless
    an exception interrupts a run that had already appended. *)
Lemma cut_keeps_lines fuel line d lines o st :
  cut fuel line d lines = Some (o, st) ->
  match o with
  | RetWhole _ | RetSplit _ _ | RetNone => st = lines
  | _ => True
  end.
Proof.
  destruct fuel as [|fuel]; simpl; [discriminate|].
  destruct (leb d zero || leb (length (coords line)) d); [intros H; now inversion H|].
  destruct (scan line d 0 (coords line)) as [|i|i]; [intros H; now inversion H| |].
  - destruct (new_LineString (firstn (i + 1) (coords line)));
      [|destruct (new_LineString (skipn i (coords line)))]; intros H; now inversion H.
  - destruct (new_LineString (firstn i (coords line) ++ [_])); [intros H; now inversion H|].
    destruct (new_LineString (_ :: skipn i (coords line))) as [e|line'];
      [intros H; now inversion H|].
    destruct (ltb d (length (coords line'))).
    + destruct (cut fuel line' d _) as [[[] ?]|]; intros H; now inversion H.
    + intros H; now inversion H.
Qed.

Lemma cut_lost fuel line d lines st :
  cut fuel line d lines = Some (RetLines false, st) ->
  exists new, st = lines ++ new /\ lost_pieces (coords line) new.
Proof.
  revert line lines st. induction fuel as [|fuel IH]; intros line lines st; simpl; [discriminate|].
  destruct (leb d zero || leb (length (coords line)) d); [discriminate|].
  destruct (scan line d 0 (coords line)) as [|i|i]; [discriminate| |].
  - destruct (new_LineString (firstn (i + 1) (coords line)));
      [|destruct (new_LineString (skipn i (coords line)))]; discriminate.
  - set (cp := interpolate (coords line) d).
    destruct (new_LineString (firstn i (coords line) ++ [cp])) as [e|piece] eqn:Epiece;
      [discriminate|].
    apply new_LineString_piece in Epiece as [Hfront ->].
    destruct (new_LineString (cp :: skipn i (coords line))) as [e|line'] eqn:Eline;
      [discriminate|].
    assert (Hskip : skipn i (coords line) <> []) by (intros E; rewrite E in Eline; discriminate).
    apply new_LineString_inr in Eline as ->.
    destruct (ltb d (length (coords (mkLine (cp :: skipn i (coords line)))))); [|discriminate].
    destruct (cut fuel _ d (lines ++ [_])) as [[o lines2]|] eqn:Erec; [|discriminate].
    pose proof (cut_keeps_lines _ _ _ _ _ _ Erec) as Hkeep.
    destruct o as [? | ? ? | [|] | | ?]; intros H; inversion H; subst; clear H;
      try (exists [mkLine (firstn i (coords line) ++ [cp])]; split;
           [reflexivity | now apply lost_stop]).
    apply IH in Erec as (new & -> & Hnew).
    exists (mkLine (firstn i (coords line) ++ [cp]) :: new).
    split; [now rewrite <- app_assoc|]. now apply lost_more.
Qed.

(** When a run returns [lines] without having appended the last remainder,
    the segments it leaves still chain at the cut points, and their
    coordinates without the cut points are a strict prefix of the
    coordinates of the line: the rest of the line is in no segment. *)
Theorem cut_lost_tail fuel line d segs :
  cut fuel line d [] = Some (RetLines false, segs) ->
  chained segs
  /\ exists k, (1 <= k < List.length (coords line))%nat
               /\ fronts segs = firstn k (coords line).
Proof.
  intros H. apply cut_lost in H as (new & -> & Hlost). simpl app.
  destruct (lost_pieces_fronts _ _ Hlost) as (Hch & k & _ & _ & _ & Hk & Hf & _).
  split; [exact Hch|]. now exists k.
Qed.

(** *** Fuel *)

(** More fuel does not change a result. *)
Lemma cut_more_fuel fuel extra line d lines r :
  cut fuel line d lines = Some r -> cut (fuel + extra) line d lines = Some r.
Proof.
  revert line lines r. induction fuel as [|fuel IH]; intros line lines r; simpl; [discriminate|].
  destruct (leb d zero || leb (length (coords line)) d); trivial.
  destruct (scan line d 0 (coords line)) as [|i|i]; trivial.
  destruct (new_LineString (firstn i (coords line) ++ [_])); trivial.
  destruct (new_LineString (_ :: skipn i (coords line))) as [e|line']; trivial.
  destruct (ltb d (length (coords line'))); trivial.
  destruct (cut fuel line' d _) as [r'|] eqn:Erec; [|discriminate].
  now rewrite (IH _ _ _ Erec).
Qed.

End Laws.

End SegmenterFacts.

(** *** The segmenter on concrete roads *)

Module GeosFacts.

Import Segmenter Geos SegmenterFacts.
Local Open Scope float_scope.

(** C8.  The straight road from (0,0) to (250,0), cut every 100 units into
    an empty list, comes back as three segments of lengths 100, 100 and 50,
    in this order. *)
Theorem cut_road250 (fuel : nat) :
  let segs := [line [(0, 0); (100, 0)]; line [(100, 0); (200, 0)]; line [(200, 0); (250, 0)]] in
  option_map returned (cut (3 + fuel) road250 100 []) = Some (Some segs)
  /\ map (fun s => length (coords s)) segs = [100; 100; 50].
Proof. vm_compute. split; reflexivity. Qed.

(** C7 at an instance: a distance of 300 exceeds the 250 units of the road. *)
Lemma cut_whole_road250 :
  cut 1 road250 300 [road250] = Some (RetWhole road250, [road250])
  /\ returned (RetWhole road250, [road250]) = Some [road250].
Proof.
  apply (cut_whole 0 road250 300 [road250]).
  right. vm_compute. reflexivity.
Defined.

(** C1 as stated fails: the segments of the 250-unit road, glued at their
    shared end points, have four coordinates, two of them interpolated; the
    road has two. *)
Lemma cut_road250_adds_points :
  exists segs,
    option_map returned (cut 3 road250 100 []) = Some (Some segs)
    /\ glue segs = [(0, 0); (100, 0); (200, 0); (250, 0)]
    /\ glue segs <> coords road250.
Proof.
  exists [line [(0, 0); (100, 0)]; line [(100, 0); (200, 0)]; line [(200, 0); (250, 0)]].
  split; [vm_compute; reflexivity|].
  split; [reflexivity|].
  vm_compute. discriminate.
Qed.

(** C1, as amended, at the same road. *)
Lemma cut_reconstructs_road250 :
  let segs := [line [(0, 0); (100, 0)]; line [(100, 0); (200, 0)]; line [(200, 0); (250, 0)]] in
  returned (RetLines true, segs) = Some segs
  /\ chained segs
  /\ without_seams segs = coords road250
  /\ List.length (glue segs) = (List.length (coords road250) + (List.length segs - 1))%nat.
Proof.
  apply (cut_reconstructs 3 road250 100 (RetLines true)).
  vm_compute. reflexivity.
Defined.

(** C4 as stated fails: the value of [cut] is not determined by the line
    and the distance, and the caller's list is changed.  A first call on an
    empty list returns three segments and leaves them in the list; a second
    call with that list returns six. *)
Lemma cut_twice_differs :
  exists first second,
    cut 3 road250 100 [] = Some (RetLines true, first)
    /\ cut 3 road250 100 first = Some (RetLines true, second)
    /\ first <> []
    /\ List.length first = 3%nat /\ List.length second = 6%nat
    /\ returned (RetLines true, first) <> returned (RetLines true, second).
Proof.
  eexists. eexists.
  split; [vm_compute; reflexivity|].
  split; [vm_compute; reflexivity|].
  split; [discriminate|].
  split; [reflexivity|]. split; [reflexivity|].
  vm_compute. discriminate.
Qed.

(** C9 says that for [0 < distance < line.length] the loop always meets a
    vertex that projects at or beyond the distance, so that the function
    never falls through.  It does on a closed line.  The line from (0,0) to
    (10,0) and back is 20 units long; its last vertex is its first point and
    projects to 0, so no vertex projects at or beyond 15 and the function
    returns [None].  The numbers of this run (0, 10, 15, 20) are integers,
    which binary64 holds exactly: exact arithmetic gives the same run. *)
Theorem cut_loop_returns_none (fuel : nat) :
  ltb 0 15 = true /\ ltb 15 (length (coords loop20)) = true
  /\ map (project (coords loop20)) (coords loop20) = [0; 10; 0]
  /\ cut (S fuel) loop20 15 [] = Some (RetNone, [])
  /\ returned (RetNone, []) = None.
Proof. vm_compute. repeat split. Qed.

(** The value of the recursive call is not used, so when it ends at the
    exact-vertex branch its two segments are lost.  Of the 300 units of this
    road only the first 100 come back. *)
Lemma cut_road300_loses_tail :
  cut 2 road300 100 [] = Some (RetLines false, [line [(0, 0); (100, 0)]])
  /\ cut 1 (line [(100, 0); (150, 0); (200, 0); (300, 0)]) 100 [line [(0, 0); (100, 0)]]
     = Some (RetSplit (line [(100, 0); (150, 0); (200, 0)]) (line [(200, 0); (300, 0)]),
             [line [(0, 0); (100, 0)]]).
Proof. vm_compute. split; reflexivity. Qed.

(** A split at the last vertex asks shapely for a line string of one
    coordinate: the triangle with a spur ends at arc length 9.5 of its own
    14.5 units. *)
Lemma cut_hook_raises :
  length (coords hook) = 14.5
  /\ map (project (coords hook)) (coords hook) = [0; 4; 7; 0; 9.5]
  /\ cut 1 hook 9.5 [] = Some (Raise ValueError, []).
Proof. vm_compute. repeat split. Qed.

(** The road of 250 units has a vertex beyond 100: the call returns a
    list. *)
Lemma cut_reaches_vertex_road250 :
  RetLines true <> RetNone.
Proof.
  apply (cut_reaches_vertex 2 road250 100 [] (250, 0) (RetLines true)
           [line [(0, 0); (100, 0)]; line [(100, 0); (200, 0)]; line [(200, 0); (250, 0)]]).
  - right. left. reflexivity.
  - right. vm_compute. reflexivity.
  - vm_compute. reflexivity.
Defined.

(** On the road of 300 units the second call splits at the vertex (200,0),
    and the caller returns the first 100 units only. *)
Lemma cut_drops_inner_split_road300 :
  cut 2 road300 100 [] = Some (RetLines false, [] ++ [line [(0, 0); (100, 0)]])
  /\ returned (RetLines false, [] ++ [line [(0, 0); (100, 0)]])
     = Some ([] ++ [line [(0, 0); (100, 0)]]).
Proof.
  apply (cut_drops_inner_split 1 road300 100 [] 1 (line [(0, 0); (100, 0)])
           (line [(100, 0); (150, 0); (200, 0); (300, 0)])
           (line [(100, 0); (150, 0); (200, 0)]) (line [(200, 0); (300, 0)])
           [line [(0, 0); (100, 0)]]); vm_compute; reflexivity.
Defined.

(** The road with a vertex at 100 units is split there. *)
Lemma cut_split_first_vertex_road :
  exists i p,
    nth_error (coords road_vertex) i = Some p
    /\ eqb (project (coords road_vertex) p) 100 = true
    /\ Forall (below road_vertex 100) (firstn i (coords road_vertex))
    /\ line [(0, 0); (100, 0)] = mkLine (firstn (i + 1) (coords road_vertex))
    /\ line [(100, 0); (250, 0)] = mkLine (skipn i (coords road_vertex))
    /\ (1 <= i)%nat
    /\ (i + 2 <= List.length (coords road_vertex))%nat
    /\ [road250] = [road250].
Proof.
  apply (cut_split_first_vertex 1 road_vertex 100 [road250]
           (line [(0, 0); (100, 0)]) (line [(100, 0); (250, 0)]) [road250]).
  vm_compute. reflexivity.
Defined.

(** The spur of the triangle ends at arc length 9.5, which is where the
    cut is asked for. *)
Lemma cut_raises_at_last_vertex_hook :
  cut 1 hook 9.5 [road250] = Some (Raise ValueError, [road250]).
Proof.
  apply (cut_raises_at_last_vertex 0 hook 9.5 [road250]
           [(0, 0); (4, 0); (4, 3); (0, 0)] (2, 1.5)).
  - vm_compute. reflexivity.
  - reflexivity.
  - repeat constructor; vm_compute; reflexivity.
  - vm_compute. reflexivity.
Defined.

(** The three segments of the 250-unit road come after what the list held. *)
Lemma cut_appends_segments_road250 :
  exists added,
    [road300; line [(0, 0); (100, 0)]; line [(100, 0); (200, 0)]; line [(200, 0); (250, 0)]]
    = [road300] ++ added
    /\ Forall (fun s => (2 <= List.length (coords s))%nat) added
    /\ (forall c, RetLines true = RetLines c -> added <> []).
Proof.
  apply (cut_appends_segments 3 road250 100 [road300] (RetLines true)).
  vm_compute. reflexivity.
Defined.

(** Of the road of 300 units only its first vertex is in what comes back. *)
Lemma cut_lost_tail_road300 :
  chained [line [(0, 0); (100, 0)]]
  /\ exists k, (1 <= k < List.length (coords road300))%nat
               /\ fronts [line [(0, 0); (100, 0)]] = firstn k (coords road300).
Proof.
  apply (cut_lost_tail 2 road300 100 [line [(0, 0); (100, 0)]]).
  vm_compute. reflexivity.
Defined.

(** The first segment of the 250-unit road ends at the point interpolated
    at 100 units. *)
Lemma cut_first_piece_road250 :
  exists i p rest,
    [line [(0, 0); (100, 0)]; line [(100, 0); (200, 0)]; line [(200, 0); (250, 0)]]
    = mkLine (firstn i (coords road250) ++ [interpolate (coords road250) 100]) :: rest
    /\ (1 <= i)%nat
    /\ nth_error (coords road250) i = Some p
    /\ ltb 100 (project (coords road250) p) = true
    /\ Forall (below road250 100) (firstn i (coords road250)).
Proof.
  apply (cut_first_piece 3 road250 100 true).
  vm_compute. reflexivity.
Defined.

End GeosFacts.

(** ** Part IV: properties of the model compiler *)

Module CompilerFacts.

Import Compiler.
Local Open Scope string_scope.

Section Laws.

Variable PRECISION_SCORES PRECISION_THRESHOLD : option nat.
Variable MODEL_INPUTS BANDS : list string.


Lemma append_assoc (a b c : string) : (a ++ b) ++ c = a ++ (b ++ c).
Proof.
  induction a as [|x a IH]; simpl; [reflexivity | now rewrite IH].
Qed.

(** The subscript fails exactly outside [-len, len). *)
Lemma getitem_out_of_range (A : Type) (l : list A) (i : Z) :
  (Z.of_nat (List.length l) <= i \/ i < - Z.of_nat (List.length l))%Z ->
  getitem l i = IndexError.
Proof.
  intros H. unfold getitem.
  destruct (i <? 0)%Z eqn:Eneg.
  - apply Z.ltb_lt in Eneg.
    replace ((i + Z.of_nat (List.length l) <? 0)%Z) with true; [reflexivity|].
    symmetry. apply Z.ltb_lt. lia.
  - apply Z.ltb_ge in Eneg.
    replace ((Z.of_nat (List.length l) <=? i)%Z) with true; [now rewrite orb_true_r|].
    symmetry. apply Z.leb_le. lia.
Qed.

Lemma getitem_from_start (A : Type) (l : list A) (i : Z) :
  (0 <= i < Z.of_nat (List.length l))%Z ->
  exists a, nth_error l (Z.to_nat i) = Some a /\ getitem l i = Ok a.
Proof.
  intros H. unfold getitem.
  replace (i <? 0)%Z with false by (symmetry; apply Z.ltb_ge; lia).
  replace (i <? 0)%Z with false by (symmetry; apply Z.ltb_ge; lia).
  replace (Z.of_nat (List.length l) <=? i)%Z with false by (symmetry; apply Z.leb_gt; lia).
  simpl. destruct (nth_error l (Z.to_nat i)) as [a|] eqn:E.
  - now exists a.
  - apply nth_error_None in E. lia.
Qed.

Lemma getitem_from_end (A : Type) (l : list A) (i : Z) :
  (- Z.of_nat (List.length l) <= i < 0)%Z ->
  exists a, nth_error l (Z.to_nat (Z.of_nat (List.length l) + i)) = Some a
            /\ getitem l i = Ok a.
Proof.
  intros H. unfold getitem.
  replace (i <? 0)%Z with true by (symmetry; apply Z.ltb_lt; lia).
  replace (i + Z.of_nat (List.length l) <? 0)%Z with false by (symmetry; apply Z.ltb_ge; lia).
  replace (Z.of_nat (List.length l) <=? i + Z.of_nat (List.length l))%Z with false
    by (symmetry; apply Z.leb_gt; lia).
  simpl. rewrite (Z.add_comm i).
  destruct (nth_error l (Z.to_nat (Z.of_nat (List.length l) + i))) as [a|] eqn:E.
  - now exists a.
  - apply nth_error_None in E. lia.
Qed.

(** C3, as amended.  A split whose [split_feature] is at least
    [len(model_inputs)] or below [-len(model_inputs)] makes the compilation
    of its subtree raise [IndexError], before either child is visited. *)
Theorem parse_subtree_index_error i threshold decision_type l r model_inputs brackets :
  (Z.of_nat (List.length model_inputs) <= i \/ i < - Z.of_nat (List.length model_inputs))%Z ->
  parse_subtree PRECISION_SCORES PRECISION_THRESHOLD
    (Split i threshold decision_type l r) model_inputs brackets
  = IndexError.
Proof.
  intros H. simpl. now rewrite getitem_out_of_range.
Qed.

(** C10, as amended.  A split whose [split_feature] is negative but not
    below [-len(model_inputs)] is accepted: the subscript yields the name at
    position [len(model_inputs) + split_feature], and when its two children
    compile the subtree compiles, to the conditional on that name. *)
Theorem parse_subtree_negative_index i threshold decision_type l r model_inputs brackets
    left right :
  (- Z.of_nat (List.length model_inputs) <= i < 0)%Z ->
  parse_subtree PRECISION_SCORES PRECISION_THRESHOLD l model_inputs true = Ok left ->
  parse_subtree PRECISION_SCORES PRECISION_THRESHOLD r model_inputs true = Ok right ->
  exists feature,
    nth_error model_inputs (Z.to_nat (Z.of_nat (List.length model_inputs) + i)) = Some feature
    /\ getitem model_inputs i = Ok feature
    /\ parse_subtree PRECISION_SCORES PRECISION_THRESHOLD
         (Split i threshold decision_type l r) model_inputs brackets =
       Ok (let result := "(" ++ feature ++ decision_type
                         ++ PyFloat.str (rounded PRECISION_THRESHOLD threshold)
                         ++ ")?" ++ left ++ ":" ++ right in
           if brackets then "(" ++ result ++ ")" else result).
Proof.
  intros H Hl Hr. destruct (getitem_from_end _ model_inputs i H) as (feature & Hnth & Hget).
  exists feature. repeat split; trivial.
  simpl. rewrite Hget. simpl. rewrite Hl. simpl. rewrite Hr. simpl.
  rewrite <- !append_assoc. destruct brackets; reflexivity.
Qed.

(** A split whose [split_feature] is a position of [model_inputs] reads
    the name at that position. *)
Theorem parse_subtree_position i threshold decision_type l r model_inputs brackets :
  (0 <= i < Z.of_nat (List.length model_inputs))%Z ->
  exists feature,
    nth_error model_inputs (Z.to_nat i) = Some feature
    /\ parse_subtree PRECISION_SCORES PRECISION_THRESHOLD
         (Split i threshold decision_type l r) model_inputs brackets =
       (left <- parse_subtree PRECISION_SCORES PRECISION_THRESHOLD l model_inputs true ;;
        right <- parse_subtree PRECISION_SCORES PRECISION_THRESHOLD r model_inputs true ;;
        let result := "(" ++ feature ++ decision_type
                      ++ PyFloat.str (rounded PRECISION_THRESHOLD threshold)
                      ++ ")?" ++ left ++ ":" ++ right in
        Ok (if brackets then "(" ++ result ++ ")" else result)).
Proof.
  intros H. destruct (getitem_from_start _ model_inputs i H) as (feature & Hnth & Hget).
  exists feature. split; trivial.
  simpl. rewrite Hget. simpl.
  destruct (parse_subtree _ _ l model_inputs true) as [left| |]; [|reflexivity..]. simpl.
  destruct (parse_subtree _ _ r model_inputs true) as [right| |]; [|reflexivity..]. simpl.
  rewrite <- !append_assoc. destruct brackets; reflexivity.
Qed.

(** C2, as amended.  For an ensemble of two trees whose roots compile to
    [e0] and [e1], the tree functions are exactly two, [pt0] and [pt1] in
    this order, and the program is the preamble, these two functions and the
    function [predict], whose body is the statement
    [return [1/(1+Math.exp(-1*(pt0(...)+pt1(...))))];].  The parameters of
    the three functions and the arguments of the two calls are one and the
    same text: all the names of [MODEL_INPUTS], in order, joined by a comma
    and a space. *)
Theorem parse_trees_two t0 t1 e0 e1 :
  parse_subtree PRECISION_SCORES PRECISION_THRESHOLD (tree_structure t0) MODEL_INPUTS false
  = Ok e0 ->
  parse_subtree PRECISION_SCORES PRECISION_THRESHOLD (tree_structure t1) MODEL_INPUTS false
  = Ok e1 ->
  let inputs := String.concat ", " MODEL_INPUTS in
  let pt0 := nl ++ "function pt0(" ++ inputs ++ ") { " ++ nl
             ++ "   return " ++ e0 ++ ";" ++ nl ++ "}" ++ nl in
  let pt1 := nl ++ "function pt1(" ++ inputs ++ ") { " ++ nl
             ++ "   return " ++ e1 ++ ";" ++ nl ++ "}" ++ nl in
  tree_functions_from PRECISION_SCORES PRECISION_THRESHOLD MODEL_INPUTS 0 [t0; t1]
  = Ok [pt0; pt1]
  /\ parse_trees PRECISION_SCORES PRECISION_THRESHOLD MODEL_INPUTS BANDS [t0; t1]
     = Ok (preamble BANDS
           ++ pt0 ++ nl ++ pt1 ++ nl
           ++ "function predict(" ++ inputs ++ ") { " ++ nl
           ++ "    return [1/(1+Math.exp(-1*(pt0(" ++ inputs ++ ")+pt1(" ++ inputs
           ++ "))))];" ++ nl
           ++ "}" ++ nl).
Proof.
  intros H0 H1 inputs pt0 pt1.
  assert (Hfs : tree_functions_from PRECISION_SCORES PRECISION_THRESHOLD MODEL_INPUTS 0 [t0; t1]
                = Ok [pt0; pt1]).
  { simpl. unfold parse_one_tree. rewrite H0, H1. reflexivity. }
  split; [exact Hfs|].
  unfold parse_trees. rewrite Hfs. cbn [bind]. do 2 f_equal.
  change (String.concat nl [pt0; pt1]) with (pt0 ++ nl ++ pt1).
  rewrite !append_assoc. do 3 f_equal.
  unfold predict. change (MODEL_INPUTS_STR MODEL_INPUTS) with inputs.
  change (List.length [t0; t1]) with 2%nat.
  change (String.concat "+" (calls MODEL_INPUTS 2))
    with (("pt0(" ++ inputs ++ ")") ++ "+" ++ "pt1(" ++ inputs ++ ")").
  rewrite !append_assoc. reflexivity.
Qed.

(** With [brackets] set a split is compiled to the text
    it has at the root, inside one more pair of parentheses; and at the
    root its children are compiled with [brackets] set. *)
Lemma parse_subtree_brackets i threshold decision_type l r model_inputs :
  parse_subtree PRECISION_SCORES PRECISION_THRESHOLD
    (Split i threshold decision_type l r) model_inputs true =
  (s <- parse_subtree PRECISION_SCORES PRECISION_THRESHOLD
          (Split i threshold decision_type l r) model_inputs false ;;
   Ok ("(" ++ s ++ ")")).
Proof.
  simpl. destruct (getitem model_inputs i) as [feature| |]; [|reflexivity..]. simpl.
  destruct (parse_subtree _ _ l model_inputs true) as [left| |]; [|reflexivity..]. simpl.
  destruct (parse_subtree _ _ r model_inputs true) as [right| |]; reflexivity.
Qed.

(** *** When the compilation fails *)

(** Every [split_feature] of the tree is a valid subscript of a list of
    length [len]. *)
Fixpoint in_range (len : Z) (n : node) : bool :=
  match n with
  | Leaf _ _ => true
  | Split i _ _ l r =>
      ((- len <=? i)%Z && (i <? len)%Z) && in_range len l && in_range len r
  | Bare _ => true
  end.

(** Every dictionary of the tree has [leaf_index] or [split_feature]. *)
Fixpoint keyed (n : node) : bool :=
  match n with
  | Leaf _ _ => true
  | Split _ _ _ l r => keyed l && keyed r
  | Bare _ => false
  end.

Lemma getitem_no_key (A : Type) (l : list A) (i : Z) : getitem l i <> KeyError.
Proof.
  unfold getitem. destruct (_ || _); [discriminate|].
  destruct (nth_error l _); discriminate.
Qed.

Lemma getitem_fails_iff (A : Type) (l : list A) (i : Z) :
  getitem l i = IndexError
  <-> ((- Z.of_nat (List.length l) <=? i)%Z && (i <? Z.of_nat (List.length l))%Z) = false.
Proof.
  split.
  - intros H. apply not_true_is_false. intros Hin.
    apply andb_true_iff in Hin as [Hlo Hhi].
    apply Z.leb_le in Hlo. apply Z.ltb_lt in Hhi.
    destruct (Z.lt_ge_cases i 0) as [Hneg|Hpos].
    + destruct (getitem_from_end _ l i) as (a & _ & E); [lia|congruence].
    + destruct (getitem_from_start _ l i) as (a & _ & E); [lia|congruence].
  - intros H. apply getitem_out_of_range.
    apply andb_false_iff in H as [H|H].
    + apply Z.leb_gt in H. lia.
    + apply Z.ltb_ge in H. lia.
Qed.

(** What each outcome of a compilation says about the tree. *)
Lemma parse_subtree_cases n model_inputs brackets :
  match parse_subtree PRECISION_SCORES PRECISION_THRESHOLD n model_inputs brackets with
  | Ok _ => keyed n = true /\ in_range (Z.of_nat (List.length model_inputs)) n = true
  | IndexError => in_range (Z.of_nat (List.length model_inputs)) n = false
  | KeyError => keyed n = false
  end.
Proof.
  revert brackets.
  induction n as [|i threshold decision_type l IHl r IHr|]; intros brackets; simpl;
    [now split| |reflexivity].
  destruct (getitem model_inputs i) as [feature| |] eqn:Eget; simpl.
  - assert (Hin : ((- Z.of_nat (List.length model_inputs) <=? i)%Z
                   && (i <? Z.of_nat (List.length model_inputs))%Z) = true).
    { apply not_false_is_true. intros H. apply getitem_fails_iff in H. congruence. }
    rewrite Hin. simpl.
    specialize (IHl true). specialize (IHr true).
    destruct (parse_subtree _ _ l model_inputs true) as [left| |]; simpl.
    + destruct IHl as [Hkl Hrl]. rewrite Hkl, Hrl. simpl.
      destruct (parse_subtree _ _ r model_inputs true) as [right| |]; simpl; trivial.
      destruct brackets; exact IHr.
    + now rewrite IHl.
    + now rewrite IHl.
  - apply getitem_fails_iff in Eget. now rewrite Eget.
  - now apply getitem_no_key in Eget.
Qed.


Definition sound (len : Z) (t : tree) : Prop :=
  keyed (tree_structure t) = true /\ in_range len (tree_structure t) = true.

Lemma tree_functions_cases idx trees :
  match tree_functions_from PRECISION_SCORES PRECISION_THRESHOLD MODEL_INPUTS idx trees with
  | Ok _ => Forall (sound (Z.of_nat (List.length MODEL_INPUTS))) trees
  | IndexError =>
      exists t, In t trees
                /\ in_range (Z.of_nat (List.length MODEL_INPUTS)) (tree_structure t) = false
  | KeyError => exists t, In t trees /\ keyed (tree_structure t) = false
  end.
Proof.
  revert idx. induction trees as [|t trees IH]; intros idx; simpl; [constructor|].
  unfold parse_one_tree.
  pose proof (parse_subtree_cases (tree_structure t) MODEL_INPUTS false) as Ht.
  destruct (parse_subtree _ _ (tree_structure t) MODEL_INPUTS false) as [body| |]; simpl.
  - specialize (IH (S idx)).
    destruct (tree_functions_from _ _ _ (S idx) trees) as [fs| |]; simpl.
    + now constructor.
    + destruct IH as (t' & Hin & Hbad). exists t'. split; [now right|assumption].
    + destruct IH as (t' & Hin & Hbad). exists t'. split; [now right|assumption].
  - exists t. split; [now left|assumption].
  - exists t. split; [now left|assumption].
Qed.


(** *** The tree functions of an ensemble of any size *)


(** For the empty ensemble the compiler does not fail: it prints the
    preamble and a [predict] that sums nothing, [-1*()]. *)
Theorem parse_trees_empty :
  parse_trees PRECISION_SCORES PRECISION_THRESHOLD MODEL_INPUTS BANDS []
  = Ok (preamble BANDS ++ nl
        ++ "function predict(" ++ MODEL_INPUTS_STR MODEL_INPUTS ++ ") { " ++ nl
        ++ "    return [1/(1+Math.exp(-1*()))];" ++ nl
        ++ "}" ++ nl).
Proof. reflexivity. Qed.

(** *** Parentheses *)

(** The nesting depth after reading [s] at depth [d]; [None] when a
    closing parenthesis has nothing to close. *)
Fixpoint depth_after (s : string) (d : nat) : option nat :=
  match s with
  | EmptyString => Some d
  | String c s' =>
      if Ascii.eqb c "(" then depth_after s' (S d)
      else if Ascii.eqb c ")" then
        match d with
        | O => None
        | S d' => depth_after s' d'
        end
      else depth_after s' d
  end.

(** No parenthesis occurs in [s]. *)
Fixpoint paren_free (s : string) : bool :=
  match s with
  | EmptyString => true
  | String c s' => negb (Ascii.eqb c "(") && negb (Ascii.eqb c ")") && paren_free s'
  end.

(** No parenthesis occurs in a [decision_type] of the tree. *)
Fixpoint operators_free (n : node) : bool :=
  match n with
  | Leaf _ _ => true
  | Split _ _ decision_type l r =>
      paren_free decision_type && operators_free l && operators_free r
  | Bare _ => true
  end.

Lemma depth_after_app a b d :
  depth_after (a ++ b) d =
  match depth_after a d with
  | Some d' => depth_after b d'
  | None => None
  end.
Proof.
  revert d. induction a as [|c a IH]; intros d; simpl; trivial.
  destruct (Ascii.eqb c "("); [apply IH|].
  destruct (Ascii.eqb c ")"); [destruct d; trivial|]; apply IH.
Qed.

Lemma depth_after_free s d : paren_free s = true -> depth_after s d = Some d.
Proof.
  induction s as [|c s IH]; simpl; trivial.
  destruct (Ascii.eqb c "("); [discriminate|].
  destruct (Ascii.eqb c ")"); [discriminate|]. exact IH.
Qed.

Lemma paren_free_app a b : paren_free (a ++ b) = paren_free a && paren_free b.
Proof.
  induction a as [|c a IH]; simpl; trivial. now rewrite IH, andb_assoc.
Qed.

Lemma paren_free_substring s : paren_free s = true ->
  forall n m, paren_free (substring n m s) = true.
Proof.
  induction s as [|c s IH]; intros Hs n m.
  - destruct n, m; reflexivity.
  - simpl in Hs. apply andb_true_iff in Hs as [Hc Hs].
    destruct n as [|n]; simpl.
    + destruct m as [|m]; simpl; trivial. rewrite Hc. now apply IH.
    + now apply IH.
Qed.

Lemma paren_free_uint u : paren_free (NilEmpty.string_of_uint u) = true.
Proof. induction u; simpl; trivial. Qed.

Lemma paren_free_digits z : paren_free (PyFloat.digits z) = true.
Proof.
  unfold PyFloat.digits, NilZero.string_of_uint.
  destruct (N.to_uint (Z.to_N z)); trivial; apply (paren_free_uint (_ _)).
Qed.

Lemma paren_free_zeros n : paren_free (PyFloat.zeros n) = true.
Proof. induction n; simpl; trivial. Qed.

Lemma paren_free_layout ds decpt :
  paren_free ds = true -> paren_free (PyFloat.layout ds decpt) = true.
Proof.
  intros Hds. unfold PyFloat.layout, PyFloat.exponent.
  destruct ((decpt <=? -4)%Z || (16 <? decpt)%Z).
  - rewrite !paren_free_app, paren_free_substring, paren_free_digits by assumption.
    destruct (1 <? String.length ds)%nat; destruct (decpt - 1 <? 0)%Z;
      destruct (Z.abs (decpt - 1) <? 10)%Z; simpl;
      rewrite ?paren_free_substring by assumption; reflexivity.
  - destruct (decpt <=? 0)%Z.
    + simpl. now rewrite paren_free_app, paren_free_zeros.
    + destruct (decpt <? Z.of_nat (String.length ds))%Z.
      * rewrite paren_free_app, paren_free_substring by assumption. simpl.
        now apply paren_free_substring.
      * now rewrite !paren_free_app, Hds, paren_free_zeros.
Qed.

(** Python never prints a parenthesis in a float. *)
Lemma paren_free_str x : paren_free (PyFloat.str x) = true.
Proof.
  unfold PyFloat.str. destruct (Prim2SF x) as [[|]|[|]| |[|] m e]; trivial;
    unfold PyFloat.shortest;
    destruct (PyFloat.shortest_from m e _ 1 17) as [c q];
    destruct (PyFloat.strip_zeros 400 c q) as [c' q'];
    simpl; apply paren_free_layout, paren_free_digits.
Qed.

Lemma getitem_In (A : Type) (l : list A) (i : Z) (a : A) :
  getitem l i = Ok a -> In a l.
Proof.
  unfold getitem. destruct (_ || _); [discriminate|].
  destruct (nth_error l _) as [a'|] eqn:E; [|discriminate].
  intros H. inversion H; subst. now apply nth_error_In in E.
Qed.

Lemma parse_subtree_depth n model_inputs brackets text :
  forallb paren_free model_inputs = true ->
  operators_free n = true ->
  parse_subtree PRECISION_SCORES PRECISION_THRESHOLD n model_inputs brackets = Ok text ->
  forall d, depth_after text d = Some d.
Proof.
  intros Hnames. revert brackets text.
  induction n as [|i threshold decision_type l IHl r IHr|]; intros brackets text Hops; simpl;
    [| |discriminate].
  - intros H d. inversion H. apply depth_after_free, paren_free_str.
  - simpl in Hops. apply andb_true_iff in Hops as [Hops Hr].
    apply andb_true_iff in Hops as [Hop Hl].
    destruct (getitem model_inputs i) as [feature| |] eqn:Eget; [|discriminate..]. simpl.
    destruct (parse_subtree _ _ l model_inputs true) as [left| |] eqn:El; [|discriminate..].
    destruct (parse_subtree _ _ r model_inputs true) as [right| |] eqn:Er; [|discriminate..].
    simpl.
    assert (Hfeature : paren_free feature = true).
    { apply getitem_In in Eget. rewrite forallb_forall in Hnames. now apply Hnames. }
    assert (Hcond : forall d, depth_after
              (feature ++ decision_type ++ PyFloat.str (rounded PRECISION_THRESHOLD threshold)) d
              = Some d).
    { intros d. apply depth_after_free.
      now rewrite !paren_free_app, Hfeature, Hop, paren_free_str. }
    assert (Hresult : forall d, depth_after
              ("(" ++ (feature ++ decision_type
                       ++ PyFloat.str (rounded PRECISION_THRESHOLD threshold))
               ++ ")?" ++ left ++ ":" ++ right) d = Some d).
    { intros d. simpl. rewrite depth_after_app, Hcond. simpl.
      rewrite depth_after_app, (IHl true left Hl El). simpl.
      apply (IHr true right Hr Er). }
    destruct brackets; intros H d; inversion H; subst; [|apply Hresult].
    change (depth_after (("(" ++ (feature ++ decision_type
                       ++ PyFloat.str (rounded PRECISION_THRESHOLD threshold))
               ++ ")?" ++ left ++ ":" ++ right) ++ ")") (S d) = Some d).
    now rewrite depth_after_app, Hresult.
Qed.

(** When no input name and no comparison operator of the tree contains a
    parenthesis, the text of the tree is well parenthesised: read at any
    depth it never closes more than was opened and ends at the depth it
    started from. *)
Theorem parse_subtree_balanced n model_inputs brackets text d :
  forallb paren_free model_inputs = true ->
  operators_free n = true ->
  parse_subtree PRECISION_SCORES PRECISION_THRESHOLD n model_inputs brackets = Ok text ->
  depth_after text d = Some d.
Proof.
  intros Hnames Hops Htext. now apply (parse_subtree_depth n model_inputs brackets).
Qed.

End Laws.

(** *** The compiler on concrete trees *)

Local Open Scope float_scope.

(** C5.  With the notebook's settings the split on feature 0 of [["B01"]]
    at threshold 1.5 with leaves 1.0 and -1.0 compiles at the root to
    [(B01<=1.5)?1.0:-1.0].  In general a split compiled with [brackets] set,
    as every child is, is the text it has at the root inside one more pair of
    parentheses. *)
Theorem parse_subtree_root :
  parse_subtree default_scores default_threshold stump ["B01"%string] false
  = Ok "(B01<=1.5)?1.0:-1.0"%string
  /\ (forall scores thresholds i threshold decision_type l r model_inputs,
        parse_subtree scores thresholds (Split i threshold decision_type l r) model_inputs false
        = (feature <- getitem model_inputs i ;;
           left <- parse_subtree scores thresholds l model_inputs true ;;
           right <- parse_subtree scores thresholds r model_inputs true ;;
           Ok ("(" ++ (feature ++ decision_type ++ PyFloat.str (rounded thresholds threshold))
               ++ ")?" ++ left ++ ":" ++ right)%string)
        /\ parse_subtree scores thresholds (Split i threshold decision_type l r) model_inputs true
           = (s <- parse_subtree scores thresholds (Split i threshold decision_type l r)
                     model_inputs false ;;
              Ok ("(" ++ s ++ ")")%string)).
Proof.
  split; [vm_compute; reflexivity|].
  intros. split; [|apply parse_subtree_brackets].
  simpl. destruct (getitem model_inputs i) as [feature| |]; [|reflexivity..]. simpl.
  destruct (parse_subtree scores thresholds l model_inputs true) as [left| |]; [|reflexivity..].
  simpl. destruct (parse_subtree scores thresholds r model_inputs true); reflexivity.
Qed.

(** C6.  With a score precision of 4 the leaf of value 0.123456 compiles
    to [0.1235]: the float is 8895942329546431 / 2^56, and 1235 is what its
    ten-thousandfold rounds to, the half upwards (no tie arises here). *)
Theorem parse_leaf_rounds (thresholds : option nat) (model_inputs : list string)
    (brackets : bool) :
  parse_subtree (Some 4%nat) thresholds (Leaf 0 0.123456) model_inputs brackets
  = Ok "0.1235"%string
  /\ Prim2SF 0.123456 = S754_finite false 8895942329546431 (-56)
  /\ PyFloat.div_half_up (8895942329546431 * 10 ^ 4) (2 ^ 56) = 1235%Z
  /\ PyFloat.round 0.123456 4 = 0.1235.
Proof.
  split; [vm_compute; reflexivity|].
  split; [vm_compute; reflexivity|].
  split; vm_compute; reflexivity.
Qed.

(** Python breaks ties towards the even digit, not upwards: 0.03125 is
    1/32, its ten-thousandfold is 312.5, and the leaf prints as 0.0312. *)
Lemma parse_leaf_tie :
  parse_subtree (Some 4%nat) None (Leaf 0 0.03125) [] true = Ok "0.0312"%string
  /\ Prim2SF 0.03125 = S754_finite false 4503599627370496 (-57)
  /\ PyFloat.div_half_up (4503599627370496 * 10 ^ 4) (2 ^ 57) = 313%Z.
Proof. vm_compute. repeat split. Qed.

(** C3 as stated fails: -1 is no position of a one-element list, and the
    split compiles all the same, to the text of the split on position 0. *)
Lemma parse_subtree_minus_one :
  ~ (0 <= -1 < Z.of_nat (List.length ["B01"%string]))%Z
  /\ parse_subtree default_scores default_threshold stump_from_end ["B01"%string] false
     = Ok "(B01<=1.5)?1.0:-1.0"%string.
Proof.
  split; [simpl; lia|]. vm_compute. reflexivity.
Qed.

(** C3, as amended, at an instance: position 1 of a one-element list. *)
Lemma parse_subtree_index_error_stump :
  parse_subtree default_scores default_threshold stump_beyond ["B01"%string] false = IndexError.
Proof.
  apply (parse_subtree_index_error default_scores default_threshold 1 1.5 "<="
           (Leaf 0 1.0) (Leaf 1 (-1.0)) ["B01"%string] false).
  left. simpl. lia.
Defined.

(** Position 1 of two inputs is the second name. *)
Lemma parse_subtree_position_stump :
  exists feature,
    nth_error ["B01"; "NDVI"]%string (Z.to_nat 1) = Some feature
    /\ parse_subtree default_scores default_threshold stump_beyond ["B01"; "NDVI"]%string true =
       (left <- parse_subtree default_scores default_threshold (Leaf 0 1.0)
                  ["B01"; "NDVI"]%string true ;;
        right <- parse_subtree default_scores default_threshold (Leaf 1 (-1.0))
                   ["B01"; "NDVI"]%string true ;;
        let result := ("(" ++ feature ++ "<="
                      ++ PyFloat.str (rounded default_threshold 1.5)
                      ++ ")?" ++ left ++ ":" ++ right)%string in
        Ok (if true then ("(" ++ result ++ ")")%string else result)).
Proof.
  apply (parse_subtree_position default_scores default_threshold 1 1.5 "<="
           (Leaf 0 1.0) (Leaf 1 (-1.0)) ["B01"; "NDVI"]%string true).
  simpl. lia.
Defined.

(** C10 as stated fails: the index -1 is accepted at the root, and the
    subtree does not compile all the same, because a child asks for
    position 5 of a one-element list. *)
Lemma parse_subtree_negative_index_bad_child :
  (- Z.of_nat (List.length ["B01"%string]) <= -1 < 0)%Z
  /\ parse_subtree default_scores default_threshold stump_over_bad_child ["B01"%string] false
     = IndexError.
Proof.
  split; [simpl; lia|]. vm_compute. reflexivity.
Qed.

(** C10, as amended, at an instance: -1 names the last of two inputs, and
    the two leaves compile. *)
Lemma parse_subtree_negative_index_stump :
  exists feature,
    nth_error ["B01"; "NDVI"]%string
      (Z.to_nat (Z.of_nat (List.length ["B01"; "NDVI"]%string) + -1)) = Some feature
    /\ getitem ["B01"; "NDVI"]%string (-1) = Ok feature
    /\ parse_subtree default_scores default_threshold stump_from_end ["B01"; "NDVI"]%string false =
       Ok (let result := ("(" ++ feature ++ "<="
                          ++ PyFloat.str (rounded default_threshold 1.5)
                          ++ ")?" ++ "1.0" ++ ":" ++ "-1.0")%string in
           if false then ("(" ++ result ++ ")")%string else result).
Proof.
  apply (parse_subtree_negative_index default_scores default_threshold (-1) 1.5 "<="
           (Leaf 0 1.0) (Leaf 1 (-1.0)) ["B01"; "NDVI"]%string false "1.0" "-1.0").
  - simpl. lia.
  - vm_compute. reflexivity.
  - vm_compute. reflexivity.
Defined.

(** The text of that subtree. *)
Lemma parse_subtree_from_end_text :
  parse_subtree default_scores default_threshold stump_from_end ["B01"; "NDVI"]%string false
  = Ok "(NDVI<=1.5)?1.0:-1.0"%string.
Proof. vm_compute. reflexivity. Qed.

(** C2 as stated fails: there are ensembles of two trees for which no
    program is generated.  Over the one input [B01] the second tree asks for
    position 1; and with [MODEL_INPUTS] empty, as the notebook sets it, two
    stumps are refused. *)
Lemma parse_trees_two_refused :
  parse_trees default_scores default_threshold ["B01"%string] default_bands
    [{| tree_structure := stump |}; {| tree_structure := stump_beyond |}] = IndexError
  /\ parse_trees default_scores default_threshold [] default_bands
       [{| tree_structure := stump |}; {| tree_structure := stump |}] = IndexError.
Proof. vm_compute. split; reflexivity. Qed.

(** C2, as amended, at an instance: an ensemble of a stump and a tree of
    depth two over the inputs [B01] and [NDVI]. *)
Lemma parse_trees_two_example :
  let pt0 := (nl ++ "function pt0(B01, NDVI) { " ++ nl
              ++ "   return (B01<=1.5)?1.0:-1.0;" ++ nl ++ "}" ++ nl)%string in
  let pt1 := (nl ++ "function pt1(B01, NDVI) { " ++ nl
              ++ "   return (NDVI<=0.25)?((B01<2.0)?0.1235:0.5):-0.0312;" ++ nl
              ++ "}" ++ nl)%string in
  tree_functions_from default_scores default_threshold ["B01"; "NDVI"]%string 0
    [{| tree_structure := stump |}; {| tree_structure := deeper |}]
  = Ok [pt0; pt1]
  /\ parse_trees default_scores default_threshold ["B01"; "NDVI"]%string default_bands
       [{| tree_structure := stump |}; {| tree_structure := deeper |}]
     = Ok (preamble default_bands
           ++ pt0 ++ nl ++ pt1 ++ nl
           ++ "function predict(B01, NDVI) { " ++ nl
           ++ "    return [1/(1+Math.exp(-1*(pt0(B01, NDVI)+pt1(B01, NDVI))))];" ++ nl
           ++ "}" ++ nl)%string.
Proof.
  apply (parse_trees_two default_scores default_threshold ["B01"; "NDVI"]%string default_bands
           {| tree_structure := stump |} {| tree_structure := deeper |}
           "(B01<=1.5)?1.0:-1.0" "(NDVI<=0.25)?((B01<2.0)?0.1235:0.5):-0.0312").
  - vm_compute. reflexivity.
  - vm_compute. reflexivity.
Defined.

(** *** The notebook as it is published *)

(** The notebook leaves [MODEL_INPUTS] empty.  Until it is filled in, an
    ensemble with a tree that has any split at its root yields no program,
    whatever the feature index; the exception is [IndexError] unless a
    dictionary without [leaf_index] and [split_feature] is among the
    trees. *)
Theorem parse_trees_unfilled scores thresholds bands trees t i threshold decision_type l r :
  In t trees ->
  tree_structure t = Split i threshold decision_type l r ->
  (forall program, parse_trees scores thresholds [] bands trees <> Ok program)
  /\ (Forall (fun t' => keyed (tree_structure t') = true) trees ->
      parse_trees scores thresholds [] bands trees = IndexError).
Proof.
  intros Hin Ht.
  assert (Hbad : in_range (Z.of_nat (List.length (@nil string))) (tree_structure t) = false).
  { rewrite Ht. simpl.
    destruct (Z.lt_ge_cases i 0) as [H|H].
    - replace (0 <=? i)%Z with false by (symmetry; apply Z.leb_gt; lia). reflexivity.
    - replace (i <? 0)%Z with false by (symmetry; apply Z.ltb_ge; lia).
      now rewrite andb_false_r. }
  pose proof (tree_functions_cases scores thresholds [] 0 trees) as H.
  unfold parse_trees.
  destruct (tree_functions_from scores thresholds [] 0 trees) as [fs| |]; simpl.
  - rewrite Forall_forall in H. destruct (H t Hin). congruence.
  - split; [discriminate | reflexivity].
  - split; [discriminate|]. intros Hall.
    destruct H as (t' & Hin' & Hk). rewrite Forall_forall in Hall.
    specialize (Hall t' Hin'). simpl in Hall. congruence.
Qed.

Lemma parse_trees_unfilled_stump :
  (forall program,
     parse_trees default_scores default_threshold [] default_bands
       [{| tree_structure := stump |}] <> Ok program)
  /\ (Forall (fun t' => keyed (tree_structure t') = true) [{| tree_structure := stump |}] ->
      parse_trees default_scores default_threshold [] default_bands
        [{| tree_structure := stump |}] = IndexError).
Proof.
  apply (parse_trees_unfilled default_scores default_threshold default_bands
           [{| tree_structure := stump |}] {| tree_structure := stump |}
           0 1.5 "<="%string (Leaf 0 1.0) (Leaf 1 (-1.0))).
  - left. reflexivity.
  - reflexivity.
Defined.

(** A tree of a single leaf, as LightGBM writes it, has no [leaf_index]:
    it is read as a split and raises [KeyError], also ahead of a tree whose
    split is out of range. *)
Lemma parse_trees_single_leaf :
  parse_trees default_scores default_threshold ["B01"%string] default_bands
    [{| tree_structure := Bare 0.5 |}; {| tree_structure := stump_beyond |}] = KeyError.
Proof. vm_compute. reflexivity. Qed.


(** The text of the deeper tree is well parenthesised. *)
Lemma parse_subtree_balanced_deeper :
  depth_after "((NDVI<=0.25)?((B01<2.0)?0.1235:0.5):-0.0312)" 0 = Some 0%nat.
Proof.
  apply (parse_subtree_balanced default_scores default_threshold deeper
           ["B01"; "NDVI"]%string true).
  - reflexivity.
  - reflexivity.
  - vm_compute. reflexivity.
Defined.

End CompilerFacts.

(** ** Part V: the program and the file *)

Module ModelFileFacts.

Import Compiler ModelFile.
Local Open Scope string_scope.

Section Laws.

Variable PRECISION_SCORES PRECISION_THRESHOLD : option nat.
Variable MODEL_INPUTS BANDS : list string.
Variable files : Type.
Variable write_text : string -> string -> files -> bool * files.

(** The program is compiled before the file is opened: when the
    compilation fails, or when the file name is [None] or empty, the files
    are what they were. *)
Theorem parse_model_no_write m js_output_filename fs :
  parse_trees PRECISION_SCORES PRECISION_THRESHOLD MODEL_INPUTS BANDS (tree_info m) = IndexError
  \/ js_output_filename = None \/ js_output_filename = Some "" ->
  snd (parse_model PRECISION_SCORES PRECISION_THRESHOLD MODEL_INPUTS BANDS files write_text
         m js_output_filename fs) = fs
  /\ forall text,
       parse_trees PRECISION_SCORES PRECISION_THRESHOLD MODEL_INPUTS BANDS (tree_info m) = Ok text ->
       fst (parse_model PRECISION_SCORES PRECISION_THRESHOLD MODEL_INPUTS BANDS files write_text
              m js_output_filename fs) = Returned text.
Proof.
  intros H. unfold parse_model.
  destruct (parse_trees _ _ _ _ (tree_info m)) as [text| |] eqn:E.
  - destruct H as [H | [-> | ->]]; [discriminate| |]; simpl;
      (split; [reflexivity|]); intros text' H'; now inversion H'.
  - split; [reflexivity|]. discriminate.
  - split; [reflexivity|]. discriminate.
Qed.

(** When [parse_model] returns a text for a non-empty file name, the text
    is the program of the model's trees and it is what was written, in one
    successful write to that file. *)
Theorem parse_model_writes_program m name fs text fs' :
  name <> "" ->
  parse_model PRECISION_SCORES PRECISION_THRESHOLD MODEL_INPUTS BANDS files write_text
    m (Some name) fs = (Returned text, fs') ->
  parse_trees PRECISION_SCORES PRECISION_THRESHOLD MODEL_INPUTS BANDS (tree_info m) = Ok text
  /\ write_text name text fs = (true, fs').
Proof.
  intros Hname. unfold parse_model.
  destruct (parse_trees _ _ _ _ (tree_info m)) as [prog| |]; [|discriminate..].
  destruct (String.eqb name "") eqn:E; [apply String.eqb_eq in E; contradiction|].
  destruct (write_text name prog fs) as [[|] fs1] eqn:Ew; intros H; inversion H; subst.
  split; [reflexivity | assumption].
Qed.

End Laws.

Local Open Scope float_scope.

(** A model whose tree asks for an input that is not there leaves the
    files alone. *)
Lemma parse_model_no_write_example :
  snd (parse_model default_scores default_threshold ["B01"] default_bands log log_write
         {| tree_info := [{| tree_structure := stump_beyond |}] |} (Some "model.js")
         [("model.js", "old")]) = [("model.js", "old")]
  /\ forall text,
       parse_trees default_scores default_threshold ["B01"] default_bands
         (tree_info {| tree_info := [{| tree_structure := stump_beyond |}] |}) = Ok text ->
       fst (parse_model default_scores default_threshold ["B01"] default_bands log log_write
              {| tree_info := [{| tree_structure := stump_beyond |}] |} (Some "model.js")
              [("model.js", "old")]) = Returned text.
Proof.
  apply (parse_model_no_write default_scores default_threshold ["B01"] default_bands
           log log_write {| tree_info := [{| tree_structure := stump_beyond |}] |}
           (Some "model.js") [("model.js", "old")]).
  left. vm_compute. reflexivity.
Defined.

(** The program of the stump is returned and written. *)
Lemma parse_model_writes_program_example :
  let text := preamble default_bands
              ++ tree_function 0 "B01" "(B01<=1.5)?1.0:-1.0" ++ nl
              ++ predict ["B01"] "pt0(B01)" in
  parse_trees default_scores default_threshold ["B01"] default_bands
    (tree_info {| tree_info := [{| tree_structure := stump |}] |}) = Ok text
  /\ log_write "model.js" text [] = (true, [("model.js", text)]).
Proof.
  apply (parse_model_writes_program default_scores default_threshold ["B01"] default_bands
           log log_write {| tree_info := [{| tree_structure := stump |}] |}
           "model.js" []).
  - discriminate.
  - vm_compute. reflexivity.
Defined.

End ModelFileFacts.
